(** * Account summarizer: discovery, classifier and document buffer

    A shallow embedding of [activities.py].  Python [str] values are
    lists of characters (code points 0..255, as [ascii]); Python [int]
    values are [Z]; JSON objects are records whose optional keys are
    [option] fields.  External collaborators (the recording platform,
    the completion API, the document store) appear as explicit oracles
    or as an explicit store, and exceptions as values of [result].
    Credentials read from the environment are taken as configured. *)

From Stdlib Require Import Ascii String.
From Stdlib Require Import DecimalString.
From Stdlib Require Import List ZArith Lia Bool Arith PeanoNat.
From Stdlib Require Import Sorting.Permutation Sorting.Sorted.
Import ListNotations.

Set Implicit Arguments.
Set Warnings "-register-all".

(** ** Python strings *)

Module Py.

Definition str := list ascii.

Definition lit (s : string) : str := list_ascii_of_string s.

Definition code (c : ascii) : nat := nat_of_ascii c.

Definition newline : ascii := ascii_of_nat 10.

Definition is_newline (c : ascii) : bool := Ascii.eqb c newline.

(** [str.isspace] on one character, restricted to code points below 256. *)
Definition is_space (c : ascii) : bool :=
  let n := code c in
  ((9 <=? n) && (n <=? 13)) || ((28 <=? n) && (n <=? 32))
  || (n =? 133) || (n =? 160).

(** [\d] and the digits [int] accepts, restricted to code points below 256. *)
Definition is_digit (c : ascii) : bool :=
  let n := code c in (48 <=? n) && (n <=? 57).

Definition digit_value (c : ascii) : Z := Z.of_nat (code c - 48).

Fixpoint str_eqb (a b : str) : bool :=
  match a, b with
  | [], [] => true
  | x :: a', y :: b' => Ascii.eqb x y && str_eqb a' b'
  | _, _ => false
  end.

(** [s.startswith(p)] *)
Fixpoint startswith (p s : str) : bool :=
  match p, s with
  | [], _ => true
  | _ :: _, [] => false
  | x :: p', y :: s' => Ascii.eqb x y && startswith p' s'
  end.

(** [s.find(p)]: the least index at which [p] occurs. *)
Fixpoint find (p s : str) : option nat :=
  if startswith p s then Some 0
  else match s with
       | [] => None
       | _ :: s' => option_map S (find p s')
       end.

(** [p in s] *)
Definition contains (p s : str) : bool :=
  match find p s with Some _ => true | None => false end.

(** Number of indices at which [p] occurs in [s]. *)
Fixpoint occurrences (p s : str) : nat :=
  (if startswith p s then 1 else 0) +
  match s with
  | [] => 0
  | _ :: s' => occurrences p s'
  end.

(** [s.rfind(p)]: the greatest index at which [p] occurs. *)
Fixpoint rfind (p s : str) : option nat :=
  match s with
  | [] => if startswith p s then Some 0 else None
  | _ :: s' =>
      match rfind p s' with
      | Some i => Some (S i)
      | None => if startswith p s then Some 0 else None
      end
  end.

Fixpoint lstrip (s : str) : str :=
  match s with
  | c :: s' => if is_space c then lstrip s' else s
  | [] => []
  end.

Definition rstrip (s : str) : str := rev (lstrip (rev s)).

(** [s.strip()] *)
Definition strip (s : str) : str := rstrip (lstrip s).

(** [s.split(sep)] for a one-character separator: never the empty list. *)
Fixpoint split (sep : ascii) (s : str) : list str :=
  match s with
  | [] => [[]]
  | c :: s' =>
      if Ascii.eqb c sep then [] :: split sep s'
      else match split sep s' with
           | [] => [[c]]
           | w :: ws => (c :: w) :: ws
           end
  end.

(** [sep.join(parts)] *)
Fixpoint join (sep : str) (parts : list str) : str :=
  match parts with
  | [] => []
  | [p] => p
  | p :: ps => p ++ sep ++ join sep ps
  end.

(** Digits of a decimal literal: single underscores may separate digits. *)
Fixpoint int_digits (acc : Z) (after_digit : bool) (s : str) : option Z :=
  match s with
  | [] => if after_digit then Some acc else None
  | c :: s' =>
      if is_digit c then int_digits (10 * acc + digit_value c) true s'
      else if Ascii.eqb c "_"%char then
             if after_digit then int_digits acc false s' else None
           else None
  end.

(** [int(s)] in base ten; [None] stands for [ValueError]. *)
Definition int (s : str) : option Z :=
  match strip s with
  | c :: s' =>
      if Ascii.eqb c "-"%char then option_map Z.opp (int_digits 0 false s')
      else if Ascii.eqb c "+"%char then int_digits 0 false s'
      else int_digits 0 false (c :: s')
  | [] => None
  end.

(** [l[a:b]] with Python's treatment of negative and oversized bounds. *)
Definition clamp_index (len : nat) (i : Z) : nat :=
  if (i <? 0)%Z then Z.to_nat (Z.max 0 (Z.of_nat len + i))
  else Nat.min len (Z.to_nat i).

Definition slice {A : Type} (l : list A) (a b : Z) : list A :=
  let lo := clamp_index (length l) a in
  let hi := clamp_index (length l) b in
  firstn (hi - lo) (skipn lo l).

(** [l[:b]] *)
Definition slice_to {A : Type} (l : list A) (b : Z) : list A := slice l 0 b.

(** Lexicographic [<] on strings, by code point. *)
Fixpoint str_ltb (a b : str) : bool :=
  match a, b with
  | [], [] => false
  | [], _ :: _ => true
  | _ :: _, [] => false
  | x :: a', y :: b' =>
      if code x <? code y then true
      else if code y <? code x then false
      else str_ltb a' b'
  end.

End Py.

Import Py.

(** ** Exceptions *)

Inductive error : Type :=
| HTTPError
| TypeError
| AttributeError
| Exception (message : str).

Inductive result (A : Type) : Type :=
| Ok (a : A)
| Raise (e : error).

Arguments Ok {A} a.
Arguments Raise {A} e.

(** ** Call records of the recording platform *)

(** A JSON scalar as the [started] field may carry it. *)
Inductive scalar : Type :=
| JNum (z : Z)
| JStr (s : str).

Record Party : Type := mkParty {
  emailAddress : option str;
  party_name : option str
}.

(** One call object: [metaData.id], [metaData.title], [metaData.started]
    and [parties]. *)
Record Call : Type := mkCall {
  meta_id : option str;
  meta_title : option str;
  meta_started : option scalar;
  parties : list Party
}.

(** ** Classifier: [filter_calls_with_llm] *)

(** The completion API as seen by the classifier: the text of the first
    content block answering the prompt built from the window's calls and
    the company name. *)
Definition Classifier : Type := list Call -> str -> str.

(** [[int(x.strip()) for x in response_text.split(",")]]; [None] when one
    piece raises [ValueError]. *)
Fixpoint parse_pieces (pieces : list str) : option (list Z) :=
  match pieces with
  | [] => Some []
  | x :: rest =>
      match int (strip x), parse_pieces rest with
      | Some i, Some is_ => Some (i :: is_)
      | _, _ => None
      end
  end.

Definition parse_indices (response_text : str) : option (list Z) :=
  parse_pieces (split ","%char response_text).

(** [[calls[i] for i in indices if 0 <= i < len(calls)]]; [None] stands
    for the [IndexError] that [calls[i]] raises out of range. *)
Fixpoint select_calls (calls : list Call) (indices : list Z)
  : option (list Call) :=
  match indices with
  | [] => Some []
  | i :: rest =>
      if ((0 <=? i) && (i <? Z.of_nat (length calls)))%Z then
        match nth_error calls (Z.to_nat i), select_calls calls rest with
        | Some c, Some cs => Some (c :: cs)
        | _, _ => None
        end
      else select_calls calls rest
  end.

(** The indices of a parsed response that the range guard lets through. *)
Definition in_range (calls : list Call) (i : Z) : bool :=
  ((0 <=? i) && (i <? Z.of_nat (length calls)))%Z.

Definition kept_indices (calls : list Call) (indices : list Z) : list Z :=
  filter (in_range calls) indices.

(** What the classifier does with the response text once it has one:
    the [try] block and its [except (ValueError, IndexError)] clause. *)
Definition interpret_response (calls : list Call) (raw : str) : list Call :=
  let response_text := strip raw in
  if str_eqb response_text (lit "NONE") || str_eqb response_text [] then []
  else match parse_indices response_text with
       | Some indices =>
           match select_calls calls indices with
           | Some filtered_calls => filtered_calls
           | None => calls
           end
       | None => calls
       end.

(** The function proper: the filtered calls and the number of completion
    requests it issued. *)
Definition filter_calls_with_llm
    (llm : Classifier) (calls : list Call) (company_name : str)
  : list Call * nat :=
  match calls with
  | [] => ([], 0)
  | _ :: _ => (interpret_response calls (llm calls company_name), 1)
  end.

(** ** Stable sorting, as [list.sort] does it *)

Section StableSort.
Variable A : Type.
(** [before y x]: [y] goes strictly before [x] in the target order. *)
Variable before : A -> A -> bool.

Fixpoint insert_sorted (x : A) (l : list A) : list A :=
  match l with
  | [] => [x]
  | y :: l' => if before y x then y :: insert_sorted x l' else x :: y :: l'
  end.

(** Elements that compare equal keep their original order. *)
Definition stable_sort (l : list A) : list A :=
  fold_right insert_sorted [] l.

(** [y] may be followed by [x]: [x] does not go strictly before [y]. *)
Definition in_order (y x : A) : Prop := before x y = false.
End StableSort.

(** ** Discovery: [fetch_all_call_ids] *)

(** The pages the platform serves for one window: a page without cursor
    ends the window, a page with a cursor is followed by another request,
    and an error status makes [raise_for_status] raise.  A value of this
    type is a page chain that ends; a platform that returns a cursor with
    every page keeps the [while True] loop running for ever and has no
    value here, so nothing below says that a window is ever completed
    unless its pages are given. *)
Inductive Pages : Type :=
| LastPage (page_calls : list Call)
| MorePages (page_calls : list Call) (next : Pages)
| ErrorStatus.

(** The recording platform: the pages of the window [months_back]. *)
Definition Gong : Type := nat -> Pages.

(** The [while True] loop of one window: all calls of the window and the
    number of requests sent. *)
Fixpoint drain_window (p : Pages) (window_calls : list Call)
    (window_api_calls : nat) : result (list Call * nat) :=
  match p with
  | ErrorStatus => Raise HTTPError
  | LastPage page_calls =>
      Ok (window_calls ++ page_calls, S window_api_calls)
  | MorePages page_calls next =>
      drain_window next (window_calls ++ page_calls) (S window_api_calls)
  end.

Definition max_consecutive_empty : nat := 6.
Definition window_days : nat := 30.
Definition max_windows : nat := 24.

(** The variables of the scanning loop; [windows_scanned] counts the loop
    bodies executed (one log line per window) and [llm_requests] the
    completion requests. *)
Record Scan : Type := mkScan {
  matching_calls : list Call;
  total_api_calls : nat;
  consecutive_empty_windows : nat;
  windows_scanned : nat;
  llm_requests : nat
}.

Definition initial_scan : Scan := mkScan [] 0 0 0 0.

(** One loop body, up to the two [break] tests: the new variables and
    whether the loop breaks. *)
Definition scan_window (llm : Classifier) (company_name : str)
    (max_calls : Z) (p : Pages) (st : Scan) : result (Scan * bool) :=
  match drain_window p [] 0 with
  | Raise e => Raise e
  | Ok (window_calls, window_api_calls) =>
      let (window_filtered, asked) :=
        filter_calls_with_llm llm window_calls company_name in
      let window_matches := length window_filtered in
      let matching := matching_calls st ++ window_filtered in
      let consecutive :=
        if window_matches =? 0 then S (consecutive_empty_windows st) else 0 in
      let st' := mkScan matching
                        (total_api_calls st + window_api_calls)
                        consecutive
                        (S (windows_scanned st))
                        (llm_requests st + asked) in
      if (window_matches =? 0) && (max_consecutive_empty <=? consecutive)
      then Ok (st', true)
      else if (max_calls <=? Z.of_nat (length matching))%Z
           then Ok (st', true)
           else Ok (st', false)
  end.

(** [for months_back in range(24)] from the window [months_back] on. *)
Fixpoint scan_windows (gong : Gong) (llm : Classifier) (company_name : str)
    (max_calls : Z) (months : list nat) (st : Scan) : result Scan :=
  match months with
  | [] => Ok st
  | months_back :: later =>
      match scan_window llm company_name max_calls (gong months_back) st with
      | Raise e => Raise e
      | Ok (st', true) => Ok st'
      | Ok (st', false) =>
          scan_windows gong llm company_name max_calls later st'
      end
  end.

(** The calls of the window [months_back] that the classifier keeps. *)
Definition window_filtered (gong : Gong) (llm : Classifier)
    (company_name : str) (months_back : nat) : result (list Call) :=
  match drain_window (gong months_back) [] 0 with
  | Raise e => Raise e
  | Ok (window_calls, _) =>
      Ok (fst (filter_calls_with_llm llm window_calls company_name))
  end.

(** [c.get("metaData", {}).get("started", 0)] *)
Definition started_key (c : Call) : scalar :=
  match meta_started c with
  | Some v => v
  | None => JNum 0
  end.

Definition same_kind (a b : scalar) : bool :=
  match a, b with
  | JNum _, JNum _ => true
  | JStr _, JStr _ => true
  | _, _ => false
  end.

(** [a > b] on keys of one kind. *)
Definition key_gtb (a b : scalar) : bool :=
  match a, b with
  | JNum x, JNum y => (y <? x)%Z
  | JStr x, JStr y => str_ltb y x
  | _, _ => false
  end.

Definition comparable (l : list Call) : bool :=
  match l with
  | [] => true
  | c :: rest => forallb (fun d => same_kind (started_key c) (started_key d)) rest
  end.

(** [matching_calls.sort(key=started, reverse=True)]: comparing a number
    with a string raises [TypeError], which any sort of two or more keys
    of both kinds runs into. *)
Definition sort_newest_first (l : list Call) : result (list Call) :=
  if comparable l
  then Ok (stable_sort (fun y x => key_gtb (started_key y) (started_key x)) l)
  else Raise TypeError.

(** [a] may stand before [b] in a newest-first list: the keys are of one
    kind and [b] does not start after [a]. *)
Definition newest_first (a b : Call) : Prop :=
  same_kind (started_key a) (started_key b) = true
  /\ key_gtb (started_key b) (started_key a) = false.

(** What the activity returns, with the loop's final variables. *)
Record Discovery : Type := mkDiscovery {
  call_ids : list (option str);
  total_count : nat;
  detected_account_name : str;
  final_scan : Scan
}.

Definition fetch_all_call_ids (gong : Gong) (llm : Classifier)
    (company_name : str) (max_calls : Z) : result Discovery :=
  match scan_windows gong llm company_name max_calls
                     (seq 0 max_windows) initial_scan with
  | Raise e => Raise e
  | Ok st =>
      match sort_newest_first (matching_calls st) with
      | Raise e => Raise e
      | Ok sorted =>
          Ok (mkDiscovery (map meta_id (slice_to sorted max_calls))
                          (length (matching_calls st))
                          company_name
                          st)
      end
  end.

(** ** Synthesizer: [synthesize_intelligence] *)

Inductive Json : Type :=
| JNull
| JBool (b : bool)
| JNumber (z : Z)
| JString (s : str)
| JArray (items : list Json)
| JObject (members : list (str * Json)).

(** [d.get(key, [])] *)
Fixpoint get_member (key : str) (members : list (str * Json)) : Json :=
  match members with
  | [] => JArray []
  | (k, v) :: rest => if str_eqb k key then v else get_member key rest
  end.

(** Whether [len] accepts the value. *)
Definition has_len (j : Json) : bool :=
  match j with
  | JString _ | JArray _ | JObject _ => true
  | _ => false
  end.

(** The text handed to [json.loads]: the stripped response, cut from its
    first opening brace to its last closing brace when it starts with a
    code fence. *)
Definition json_payload (raw : str) : str :=
  let response_text := strip raw in
  if startswith (lit "```") response_text then
    let start_idx :=
      match find (lit "{") response_text with
      | Some i => Z.of_nat i
      | None => (-1)%Z
      end in
    let end_idx :=
      (match rfind (lit "}") response_text with
       | Some i => Z.of_nat i
       | None => (-1)%Z
       end + 1)%Z in
    slice response_text start_idx end_idx
  else response_text.

(** The cut as the specification words it: from the first opening brace
    to the last closing brace, whatever the text starts with. *)
Definition strip_to_braces (response_text : str) : str :=
  let start_idx :=
    match find (lit "{") response_text with
    | Some i => Z.of_nat i
    | None => (-1)%Z
    end in
  let end_idx :=
    (match rfind (lit "}") response_text with
     | Some i => Z.of_nat i
     | None => (-1)%Z
     end + 1)%Z in
  slice response_text start_idx end_idx.

Definition parse_failure_prefix : str :=
  lit "Failed to parse Claude's JSON response: ".

Section Synthesizer.
(** [json.loads]: the value, or the message of the [JSONDecodeError]. *)
Variable json_loads : str -> Json + str.

(** From the response text on: the parsed brief or the exception. *)
Definition synthesize_intelligence (raw : str) : result Json :=
  match json_loads (json_payload raw) with
  | inr message => Raise (Exception (parse_failure_prefix ++ message))
  | inl (JObject members) =>
      if has_len (get_member (lit "quick_context") members)
         && has_len (get_member (lit "call_history") members)
      then Ok (JObject members)
      else Raise TypeError
  | inl _ => Raise AttributeError
  end.
End Synthesizer.

(** ** The document store *)

Record TextStyle : Type := mkStyle {
  bold : bool;
  fontSize : option nat
}.

Definition plain : TextStyle := mkStyle false None.

Definition style_eqb (a b : TextStyle) : bool :=
  Bool.eqb (bold a) (bold b) &&
  match fontSize a, fontSize b with
  | None, None => true
  | Some x, Some y => x =? y
  | _, _ => false
  end.

(** One character of the body with its text style. *)
Record Cell : Type := mkCell {
  ch : ascii;
  style : TextStyle
}.

(** Modelled from the spec: the document store is an external service.
    Its state is the body text; the character at 1-based offset [i] is
    the cell number [i - 1]. *)
Definition Store : Type := list Cell.

Definition text_of (s : Store) : str := map ch s.

(** A document whose text carries no style. *)
Definition plain_text (text : str) : Store := map (fun c => mkCell c plain) text.

(** The tree [documents().get] returns. *)
Inductive ParagraphElement : Type :=
| TextRun (content : str) (textStyle : TextStyle)
| OtherElement.

Record StructuralElement : Type := mkElement {
  startIndex : option nat;
  endIndex : option nat;
  paragraph : option (list ParagraphElement)
}.

Definition Document : Type := list StructuralElement.

(** Paragraphs end after each newline. *)
Fixpoint split_paragraphs (s : Store) : list (list Cell) :=
  match s with
  | [] => []
  | c :: s' =>
      if is_newline (ch c) then [c] :: split_paragraphs s'
      else match split_paragraphs s' with
           | [] => [[c]]
           | p :: ps => (c :: p) :: ps
           end
  end.

(** Text runs are the maximal stretches of one style in a paragraph. *)
Fixpoint group_runs (p : list Cell) : list ParagraphElement :=
  match p with
  | [] => []
  | c :: p' =>
      match group_runs p' with
      | TextRun t st :: rest =>
          if style_eqb (style c) st then TextRun (ch c :: t) st :: rest
          else TextRun [ch c] (style c) :: TextRun t st :: rest
      | rest => TextRun [ch c] (style c) :: rest
      end
  end.

Fixpoint number_paragraphs (start : nat) (ps : list (list Cell))
  : list StructuralElement :=
  match ps with
  | [] => []
  | p :: ps' =>
      mkElement (Some start) (Some (start + length p)) (Some (group_runs p))
      :: number_paragraphs (start + length p) ps'
  end.

(** Modelled from the spec: get-full-document, the paragraph and run tree
    with offsets, after the leading section break that ends at offset 1. *)
Definition get_document (s : Store) : Document :=
  mkElement None (Some 1) None :: number_paragraphs 1 (split_paragraphs s).

Inductive Request : Type :=
| InsertText (index : nat) (text : str)
| DeleteContentRange (range_start range_end : nat)
| UpdateTextStyle (range_start range_end : nat)
                  (set_bold : bool) (set_size : option nat)
| CreateParagraphBullets (range_start range_end : nat).

(** Inserted text takes the style of the character before the insertion
    point, or of the character at it when there is none before. *)
Definition style_at (s : Store) (index : nat) : TextStyle :=
  match (if 2 <=? index then nth_error s (index - 2) else None),
        nth_error s (index - 1) with
  | Some c, _ => style c
  | None, Some d => style d
  | None, None => plain
  end.

Definition restyle (set_bold : bool) (set_size : option nat) (c : Cell) : Cell :=
  mkCell (ch c)
         (mkStyle set_bold
                  (match set_size with
                   | Some n => Some n
                   | None => fontSize (style c)
                   end)).

(** Apply [f] to the cells at offsets [range_start <= i < range_end],
    where [i] is the offset of the head of the list. *)
Fixpoint map_range (f : Cell -> Cell) (i range_start range_end : nat)
    (s : Store) : Store :=
  match s with
  | [] => []
  | c :: s' =>
      (if (range_start <=? i) && (i <? range_end) then f c else c)
      :: map_range f (S i) range_start range_end s'
  end.

(** Modelled from the spec: one positional edit.  An insertion at offset
    [i] shifts everything from [i] on forward by the length of the text;
    a deletion removes the offsets [range_start <= i < range_end]; style
    and bullet requests never change the text.  [None] is the error
    status of an edit outside the body. *)
Definition apply_request (r : Request) (s : Store) : option Store :=
  match r with
  | InsertText index text =>
      if (1 <=? index) && (index <=? S (length s)) then
        Some (firstn (index - 1) s
              ++ map (fun c => mkCell c (style_at s index)) text
              ++ skipn (index - 1) s)
      else None
  | DeleteContentRange a b =>
      if (1 <=? a) && (a <? b) && (b <=? S (length s)) then
        Some (firstn (a - 1) s ++ skipn (b - 1) s)
      else None
  | UpdateTextStyle a b set_bold set_size =>
      Some (map_range (restyle set_bold set_size) 1 a b s)
  | CreateParagraphBullets _ _ => Some s
  end.

Fixpoint apply_requests (rs : list Request) (s : Store) : option Store :=
  match rs with
  | [] => Some s
  | r :: rs' =>
      match apply_request r s with
      | Some s' => apply_requests rs' s'
      | None => None
      end
  end.

(** Modelled from the spec: batch-apply.  The requests are applied in
    order, each against the text the previous one left; a failing
    request fails the batch and leaves the document as it was. *)
Definition batchUpdate (rs : list Request) (s : Store) : result Store :=
  match apply_requests rs s with
  | Some s' => Ok s'
  | None => Raise HTTPError
  end.

(** ** Document buffer: reading the text *)

Definition run_texts (elements : list ParagraphElement) : list str :=
  flat_map (fun elem => match elem with
                        | TextRun content _ => [content]
                        | OtherElement => []
                        end) elements.

(** The parts collected by the two nested loops over paragraphs and runs. *)
Definition text_parts (doc_content : Document) : list str :=
  flat_map (fun element => match paragraph element with
                           | Some elements => run_texts elements
                           | None => []
                           end) doc_content.

Definition full_doc_text (doc_content : Document) : str :=
  concat (text_parts doc_content).

(** ** Document buffer: [append_summary_to_doc] *)

Definition call_id_key (call_id : str) : str := lit "Call ID: " ++ call_id.

Definition append_summary_to_doc (s : Store) (summary call_id : str)
  : result (Store * bool) :=
  let doc_content := get_document s in
  if contains (call_id_key call_id) (full_doc_text doc_content)
  then Ok (s, false)
  else
    let insert_index := 1 in
    let text_with_newline := summary ++ [newline] in
    match batchUpdate [InsertText insert_index text_with_newline] s with
    | Ok s' => Ok (s', true)
    | Raise e => Raise e
    end.

(** ** Regular expressions, as [re.finditer] scans them *)

(** A lazy repetition followed by the literal [p]: the number of
    characters, all satisfying [ok], skipped before the first [p]. *)
Fixpoint lazy_until (ok : ascii -> bool) (p : str) (s : str) : option nat :=
  if startswith p s then Some 0
  else match s with
       | [] => None
       | c :: s' => if ok c then option_map S (lazy_until ok p s') else None
       end.

Section Finditer.
Variable B : Type.
(** The match that starts at the head of the text: its length (never
    zero for the patterns below) and what it captures. *)
Variable match_here : str -> option (nat * B).

(** Non-overlapping matches from left to right; [pos] is the offset of
    the head of the text and [skip] how many characters the previous
    match still covers. *)
Fixpoint finditer_from (s : str) (pos skip : nat) : list (nat * nat * B) :=
  match s with
  | [] => []
  | _ :: s' =>
      match skip with
      | S k => finditer_from s' (S pos) k
      | O =>
          match match_here s with
          | Some (len, b) =>
              (pos, pos + len, b) :: finditer_from s' (S pos) (len - 1)
          | None => finditer_from s' (S pos) 0
          end
      end
  end.

Definition finditer (s : str) : list (nat * nat * B) := finditer_from s 0 0.
End Finditer.

Definition any_char (c : ascii) : bool := true.
Definition not_newline (c : ascii) : bool := negb (is_newline c).

Definition summary_prefix : str := lit "=== CALL SUMMARY: ".
Definition triple_equals : str := lit "===".
Definition double_star : str := lit "**".

(** [\d{4}-\d{2}-\d{2}] *)
Definition is_date (d : str) : bool :=
  match d with
  | [y1; y2; y3; y4; h1; m1; m2; h2; d1; d2] =>
      is_digit y1 && is_digit y2 && is_digit y3 && is_digit y4
      && Ascii.eqb h1 "-"%char && is_digit m1 && is_digit m2
      && Ascii.eqb h2 "-"%char && is_digit d1 && is_digit d2
  | _ => false
  end.

(** [(=== CALL SUMMARY: (\d{4}-\d{2}-\d{2}) - .+?===.*?===)] with
    [re.DOTALL], anchored at the head: the length and the date. *)
Definition match_summary_at (s : str) : option (nat * str) :=
  if startswith summary_prefix s then
    let after_prefix := skipn 18 s in
    let date_str := firstn 10 after_prefix in
    if is_date date_str && startswith (lit " - ") (skipn 10 after_prefix) then
      match skipn 13 after_prefix with
      | _ :: title_rest =>
          match lazy_until any_char triple_equals title_rest with
          | Some j =>
              match lazy_until any_char triple_equals
                               (skipn (j + 3) title_rest) with
              | Some k => Some (18 + 10 + 3 + 1 + j + 3 + k + 3, date_str)
              | None => None
              end
          | None => None
          end
      | [] => None
      end
    else None
  else None.

(** [\*\*(.+?)\*\*] anchored at the head: the length of the match. *)
Definition match_bold_at (s : str) : option (nat * unit) :=
  if startswith double_star s then
    match skipn 2 s with
    | c :: rest =>
        if not_newline c then
          match lazy_until not_newline double_star rest with
          | Some j => Some (2 + 1 + j + 2, tt)
          | None => None
          end
        else None
    | [] => None
    end
  else None.

(** ** Document buffer: [read_summaries_doc] *)

(** [text[a:b]] for offsets inside the text. *)
Definition span (text : str) (a b : nat) : str := firstn (b - a) (skipn a text).

(** The pairs [(date_str, summary_text)] of the matches, in text order. *)
Definition extract_summaries (full_text : str) : list (str * str) :=
  map (fun m => match m with
                | (a, b, date_str) => (date_str, span full_text a b)
                end)
      (finditer match_summary_at full_text).

Definition date_before (y x : str * str) : bool := str_ltb (fst y) (fst x).

(** [a] may stand before [b] in date order: the date of [b] is not the
    smaller one. *)
Definition date_order (a b : str * str) : Prop := str_ltb (fst b) (fst a) = false.

(** The triple [(a, e, date_str)] is a match of the block pattern in the
    text: the pattern matches at the offset [a] with the length [e - a],
    inside the text, and [date_str] is the date of the header, the ten
    characters after the start delimiter. *)
Definition block_match (full_text : str) (m : nat * nat * str) : Prop :=
  match m with
  | (a, e, date_str) =>
      a < e /\ e <= length full_text
      /\ match_summary_at (skipn a full_text) = Some (e - a, date_str)
      /\ is_date date_str = true
      /\ date_str = span full_text (a + 18) (a + 28)
  end.

(** The pair [(date_str, summary_text)] the reader keeps for a match. *)
Definition block_at (full_text : str) (m : nat * nat * str) : str * str :=
  match m with
  | (a, e, date_str) => (date_str, span full_text a e)
  end.

Definition read_summaries_doc (s : Store) : str :=
  let full_text := full_doc_text (get_document s) in
  match extract_summaries full_text with
  | [] => full_text
  | summaries =>
      join [newline] (map snd (stable_sort date_before summaries))
  end.

(** ** Document buffer: [write_intelligence_to_doc] *)

Definition start_marker : str := lit "ACCOUNT INTELLIGENCE".
Definition end_marker : str := lit "END ACCOUNT INTELLIGENCE".

Definition is_none {A : Type} (o : option A) : bool :=
  match o with None => true | Some _ => false end.

(** The inner loop over the runs of one paragraph; the pair is
    [(intelligence_start_index, intelligence_end_index)] and the [break]
    leaves the remaining runs of the paragraph unread. *)
Fixpoint scan_runs (element : StructuralElement)
    (elements : list ParagraphElement) (found : option nat * option nat)
  : option nat * option nat :=
  match elements with
  | [] => found
  | TextRun text _ :: rest =>
      if contains start_marker text && is_none (fst found)
      then scan_runs element rest (startIndex element, snd found)
      else if contains end_marker text && negb (is_none (fst found))
           then (fst found, endIndex element)
           else scan_runs element rest found
  | OtherElement :: rest => scan_runs element rest found
  end.

(** The outer loop over the structural elements of the body. *)
Definition scan_markers (doc_content : Document) : option nat * option nat :=
  fold_left (fun found element =>
               match paragraph element with
               | Some elements => scan_runs element elements found
               | None => found
               end)
            doc_content (None, None).

(** [old_intelligence_exists] with the two offsets. *)
Definition old_intelligence (doc_content : Document) : option (nat * nat) :=
  match scan_markers doc_content with
  | (Some a, Some b) => Some (a, b)
  | _ => None
  end.

Inductive style_type : Type := title_style | section_header_style | bold_style.

(** The brief, each value as the text an f-string prints for it. *)
Record HistoryEntry : Type := mkEntry {
  entry_date : option str;
  entry_type : option str;
  entry_one_sentence : option str
}.

Record Intelligence : Type := mkIntelligence {
  account : option str;
  last_updated : option str;
  total_calls : option str;
  quick_context : list str;
  blocking_progress : list str;
  next_actions : list str;
  risks : list str;
  call_history : list HistoryEntry
}.

(** The variables of the content builder. *)
Record Builder : Type := mkBuilder {
  content_parts : list str;
  formatting_ranges : list (nat * nat * style_type);
  bullet_ranges : list (nat * nat);
  current_offset : nat
}.

Definition emit (t : str) (b : Builder) : Builder :=
  mkBuilder (content_parts b ++ [t]) (formatting_ranges b) (bullet_ranges b)
            (current_offset b + length t).

Definition mark (a e : nat) (k : style_type) (b : Builder) : Builder :=
  mkBuilder (content_parts b) (formatting_ranges b ++ [(a, e, k)])
            (bullet_ranges b) (current_offset b).

Definition emit_bullet (item : str) (b : Builder) : Builder :=
  let bullet_line := item ++ [newline] in
  let bullet_start := current_offset b in
  let b' := emit bullet_line b in
  mkBuilder (content_parts b') (formatting_ranges b')
            (bullet_ranges b' ++ [(bullet_start, current_offset b' - 1)])
            (current_offset b').

Definition emit_label (label rest : str) (b : Builder) : Builder :=
  let line := label ++ rest ++ [newline] in
  let label_end := current_offset b + length label in
  emit line (mark (current_offset b) label_end bold_style b).

Definition emit_section (header : str) (b : Builder) : Builder :=
  let section_start := current_offset b in
  mark section_start (section_start + length header) section_header_style
       (emit (header ++ [newline; newline]) b).

Definition emit_bullets (items : list str) (b : Builder) : Builder :=
  fold_left (fun acc item => emit_bullet item acc) items b.

Definition none_identified : str := lit "None identified".

(** [not items or (len(items) == 1 and "None identified" in items[0])] *)
Definition nothing_identified (items : list str) : bool :=
  match items with
  | [] => true
  | [x] => contains none_identified x
  | _ => false
  end.

Definition emit_bullets_or_none (items : list str) (b : Builder) : Builder :=
  if nothing_identified items then emit_bullet none_identified b
  else emit_bullets items b.

Definition or_default (o : option str) (d : str) : str :=
  match o with Some v => v | None => d end.

Definition decimal (n : nat) : str :=
  lit (NilEmpty.string_of_uint (Nat.to_uint n)).

Definition history_line (call : HistoryEntry) : str :=
  or_default (entry_date call) (lit "N/A") ++ lit " - "
  ++ or_default (entry_type call) (lit "Unknown") ++ lit ": "
  ++ or_default (entry_one_sentence call) (lit "N/A").

Definition separator_line : str := repeat "="%char 60 ++ [newline].
Definition divider : str := repeat "-"%char 60 ++ [newline; newline].

(** The text of the section with the ranges to style, in the order the
    source appends them; [today] is the current date. *)
Definition build_content (intelligence : Intelligence)
    (account_name today : str) : Builder :=
  let b := mkBuilder [] [] [] 0 in
  let b := emit separator_line b in
  let title_start := current_offset b in
  let b := emit (start_marker ++ [newline]) b in
  let b := mark title_start (current_offset b - 1) title_style b in
  let b := emit separator_line b in
  let b := emit_label (lit "Account:")
             (lit " " ++ or_default (account intelligence) account_name) b in
  let b := emit_label (lit "Last Updated:")
             (lit " " ++ or_default (last_updated intelligence) today) b in
  let b := emit_label (lit "Total Calls:")
             (lit " " ++ or_default (total_calls intelligence)
                           (decimal (length (call_history intelligence)))) b in
  let b := emit [newline] b in
  let b := emit divider b in
  let b := emit_section (lit "QUICK CONTEXT") b in
  let b := emit_bullets (quick_context intelligence) b in
  let b := emit [newline] b in
  let b := emit_section (lit "BLOCKING PROGRESS") b in
  let b := emit_bullets_or_none (blocking_progress intelligence) b in
  let b := emit [newline] b in
  let b := emit_section (lit "NEXT ACTIONS") b in
  let b := emit_bullets (next_actions intelligence) b in
  let b := emit [newline] b in
  let b := emit_section (lit "RISKS") b in
  let b := emit_bullets_or_none (risks intelligence) b in
  let b := emit [newline] b in
  let b := emit divider b in
  let b := emit_section (lit "CALL HISTORY (newest first)") b in
  let b := emit_bullets (map history_line (call_history intelligence)) b in
  let b := emit [newline] b in
  let b := emit separator_line b in
  let b := emit (end_marker ++ [newline]) b in
  let b := emit separator_line b in
  emit [newline; newline] b.

Definition full_text_of (b : Builder) : str := concat (content_parts b).

Definition styling_request (insert_index : nat) (r : nat * nat * style_type)
  : Request :=
  match r with
  | (start_offset, end_offset, k) =>
      let start_idx := insert_index + start_offset in
      let end_idx := insert_index + end_offset in
      match k with
      | title_style => UpdateTextStyle start_idx end_idx true (Some 16)
      | section_header_style => UpdateTextStyle start_idx end_idx true (Some 12)
      | bold_style => UpdateTextStyle start_idx end_idx true None
      end
  end.

Definition bullet_request (insert_index : nat) (r : nat * nat) : Request :=
  CreateParagraphBullets (insert_index + fst r) (insert_index + snd r).

Definition bind {A B : Type} (r : result A) (k : A -> result B) : result B :=
  match r with
  | Ok a => k a
  | Raise e => Raise e
  end.

Notation "x <- r ;; k" := (bind r (fun x => k))
  (at level 61, r at next level, right associativity).

(** A batch is sent only when it holds a request. *)
Definition batch_if_any (rs : list Request) (s : Store) : result Store :=
  match rs with
  | [] => Ok s
  | _ :: _ => batchUpdate rs s
  end.

(** Steps 1 to 7: locate the old section, insert the new text at offset
    1, style it, and delete the old section at its shifted offsets. *)
Definition replace_or_prepend_section (s : Store) (content : Builder)
  : result Store :=
  let doc_content := get_document s in
  let old := old_intelligence doc_content in
  let insert_index := 1 in
  let full_text := full_text_of content in
  s1 <- batchUpdate [InsertText insert_index full_text] s ;;
  s2 <- batch_if_any (map (styling_request insert_index)
                          (formatting_ranges content)) s1 ;;
  s3 <- batch_if_any (map (bullet_request insert_index)
                          (bullet_ranges content)) s2 ;;
  match old with
  | Some (intelligence_start_index, intelligence_end_index) =>
      let new_start := intelligence_start_index + length full_text in
      let new_end := intelligence_end_index + length full_text in
      batchUpdate [DeleteContentRange new_start new_end] s3
  | None => Ok s3
  end.

(** Step 8: the markdown pass. *)
Inductive marker : Type := closing | opening | bullet_marker.

Record Markdown : Type := mkMarkdown {
  bold_requests : list Request;
  delete_requests : list (marker * nat * nat);
  bullet_requests : list Request;
  current_index : nat
}.

Definition bold_matches (text : str) : list (nat * nat * unit) :=
  finditer match_bold_at text.

Definition summary_header : str := lit "=== CALL SUMMARY:".
Definition bullet_prefix : str := lit "- ".

(** The body of the loop over one text run. *)
Definition scan_run (paragraph_start paragraph_end : nat) (text : str)
    (st : Markdown) : Markdown :=
  let start_idx := current_index st in
  let st1 :=
    fold_left
      (fun acc m =>
         match m with
         | (m_start, m_end, _) =>
             let match_start := start_idx + m_start in
             let match_end := start_idx + m_end in
             let content_start := match_start + 2 in
             let content_end := match_end - 2 in
             mkMarkdown
               (bold_requests acc
                ++ [UpdateTextStyle content_start content_end true None])
               (delete_requests acc
                ++ [(closing, match_end - 2, match_end);
                    (opening, match_start, match_start + 2)])
               (bullet_requests acc)
               (current_index acc)
         end)
      (bold_matches text) st in
  let st2 :=
    if startswith summary_header text then
      mkMarkdown
        (bold_requests st1
         ++ [UpdateTextStyle start_idx (start_idx + length (rstrip text))
                             true None])
        (delete_requests st1) (bullet_requests st1) (current_index st1)
    else st1 in
  let st3 :=
    if startswith bullet_prefix text then
      mkMarkdown
        (bold_requests st2)
        (delete_requests st2 ++ [(bullet_marker, start_idx, start_idx + 2)])
        (bullet_requests st2
         ++ [CreateParagraphBullets paragraph_start paragraph_end])
        (current_index st2)
    else st2 in
  mkMarkdown (bold_requests st3) (delete_requests st3) (bullet_requests st3)
             (current_index st3 + length text).

Definition scan_paragraph (element : StructuralElement)
    (elements : list ParagraphElement) (st : Markdown) : Markdown :=
  let paragraph_start :=
    match startIndex element with Some i => i | None => current_index st end in
  let paragraph_end :=
    match endIndex element with Some i => i | None => current_index st end in
  fold_left (fun acc elem =>
               match elem with
               | TextRun text _ => scan_run paragraph_start paragraph_end text acc
               | OtherElement => acc
               end)
            elements st.

Definition scan_markdown (doc_content : Document) : Markdown :=
  fold_left (fun acc element =>
               match paragraph element with
               | Some elements => scan_paragraph element elements acc
               | None => acc
               end)
            doc_content (mkMarkdown [] [] [] 1).

Definition delete_start (d : marker * nat * nat) : nat := snd (fst d).
Definition delete_end (d : marker * nat * nat) : nat := snd d.

(** [delete_requests.sort(key=lambda x: x[1], reverse=True)] *)
Definition sort_deletes (ds : list (marker * nat * nat))
  : list (marker * nat * nat) :=
  stable_sort (fun y x => delete_start x <? delete_start y) ds.

Definition delete_ops (ds : list (marker * nat * nat)) : list Request :=
  map (fun d => DeleteContentRange (delete_start d) (delete_end d))
      (sort_deletes ds).

Definition apply_inline_formatting (s : Store) : result Store :=
  let md := scan_markdown (get_document s) in
  s1 <- batch_if_any (bold_requests md) s ;;
  s2 <- batch_if_any (bullet_requests md) s1 ;;
  batch_if_any (delete_ops (delete_requests md)) s2.

Definition write_intelligence_to_doc (s : Store) (intelligence : Intelligence)
    (account_name today : str) : result Store :=
  s1 <- replace_or_prepend_section s
          (build_content intelligence account_name today) ;;
  apply_inline_formatting s1.

(** ** More Python strings *)

(** [c.lower()] on one character, for code points below 256. *)
Definition lower_char (c : ascii) : ascii :=
  let n := code c in
  if ((65 <=? n) && (n <=? 90))
     || ((192 <=? n) && (n <=? 222) && negb (n =? 215))
  then ascii_of_nat (n + 32) else c.

(** [s.lower()] *)
Definition lower (s : str) : str := map lower_char s.

(** [s.replace(old, new)] from the offset where [skip] characters of a
    replaced occurrence are still to be passed. *)
Fixpoint replace_from (old new s : str) (skip : nat) : str :=
  match s with
  | [] => []
  | c :: s' =>
      match skip with
      | S k => replace_from old new s' k
      | O =>
          if startswith old s
          then new ++ replace_from old new s' (length old - 1)
          else c :: replace_from old new s' 0
      end
  end.

(** [s.replace(old, new)]: every occurrence, left to right, without
    overlap; an empty [old] puts [new] around every character. *)
Definition replace (old new s : str) : str :=
  match old with
  | [] => new ++ flat_map (fun c => c :: new) s
  | _ :: _ => replace_from old new s 0
  end.

(** [s.endswith(suffix)] *)
Definition endswith (suffix s : str) : bool := startswith (rev suffix) (rev s).

(** [s.split(sep)] for a separator of one or more characters. *)
Fixpoint split_str_from (sep s : str) (skip : nat) : list str :=
  match s with
  | [] => [[]]
  | c :: s' =>
      match skip with
      | S k => split_str_from sep s' k
      | O =>
          if startswith sep s
          then [] :: split_str_from sep s' (length sep - 1)
          else match split_str_from sep s' 0 with
               | [] => [[c]]
               | w :: ws => (c :: w) :: ws
               end
      end
  end.

Definition split_str (sep s : str) : list str := split_str_from sep s 0.

(** [str(z)] for an [int]. *)
Definition decimal_Z (z : Z) : str :=
  if (z <? 0)%Z then "-"%char :: decimal (Z.to_nat (- z))
  else decimal (Z.to_nat z).

(** ** Account name normalizer *)

Definition normalize_company_name (name : str) : str :=
  replace (lit "-") [] (replace (lit " ") [] (lower name)).

Definition common_tlds : list str :=
  [lit ".com"; lit ".io"; lit ".ai"; lit ".net"; lit ".org"; lit ".co";
   lit ".edu"].

(** The loop over the suffixes with its [break]. *)
Fixpoint strip_tld (tlds : list str) (domain : str) : str :=
  match tlds with
  | [] => domain
  | tld :: rest =>
      if endswith tld domain
      then slice_to domain (- Z.of_nat (length tld))
      else strip_tld rest domain
  end.

(** [None] stands for the [IndexError] of [email.split("@")[1]]. *)
Definition extract_company_from_email (email : str) : option str :=
  if negb (contains (lit "@") email) then Some []
  else match split "@"%char email with
       | _ :: domain :: _ =>
           Some (normalize_company_name (strip_tld common_tlds domain))
       | _ => None
       end.

(** ** Document address *)

(** The address [find_or_create_summaries_doc] returns for a document. *)
Definition doc_url_of (doc_id : str) : str :=
  lit "https://docs.google.com/document/d/" ++ doc_id ++ lit "/edit".

(** [doc_url.split("/d/")[1].split("/")[0]]; [None] stands for the
    [IndexError] of the first index. *)
Definition doc_id_of (doc_url : str) : option str :=
  match split_str (lit "/d/") doc_url with
  | _ :: rest :: _ =>
      match split_str (lit "/") rest with
      | doc_id :: _ => Some doc_id
      | [] => None
      end
  | _ => None
  end.

(** ** Call summarizer: the block it formats *)

(** Whether [p.get("emailAddress")] counts and is not the vendor's. *)
Definition external_party (p : Party) : bool :=
  match emailAddress p with
  | Some (c :: email) => negb (endswith (lit "@temporal.io") (c :: email))
  | _ => false
  end.

Definition participant_names (ps : list Party) : list str :=
  map (fun p => or_default (party_name p) (lit "Unknown"))
      (filter external_party ps).

Definition participants_str (ps : list Party) : str :=
  match participant_names ps with
  | [] => lit "No external participants"
  | names => join (lit ", ") names
  end.

(** The f-string at the end of [fetch_and_summarize_call]; [duration] is
    [metadata.get('duration', 0)] and [title] is [metadata.get('title')]. *)
Definition formatted_summary (call_date_str : str) (title : option str)
    (call_id : str) (ps : list Party) (duration : option Z) (summary : str)
  : str :=
  lit "=== CALL SUMMARY: " ++ call_date_str ++ lit " - "
  ++ or_default title (lit "Untitled") ++ lit " ===" ++ [newline]
  ++ lit "Call ID: " ++ call_id ++ [newline]
  ++ lit "Participants: " ++ participants_str ps ++ [newline]
  ++ lit "Duration: "
  ++ decimal_Z (match duration with Some d => d | None => 0%Z end / 60)
  ++ lit " minutes" ++ [newline] ++ [newline]
  ++ summary ++ [newline] ++ [newline]
  ++ lit "===" ++ [newline].

(** ** Predicates used by the properties *)

(** The range a request addresses; an insertion addresses its offset. *)
Definition request_range (r : Request) : nat * nat :=
  match r with
  | InsertText index _ => (index, index)
  | DeleteContentRange a b => (a, b)
  | UpdateTextStyle a b _ _ => (a, b)
  | CreateParagraphBullets a b => (a, b)
  end.

(** The offsets of the builder are those of the text it has built. *)
Definition bookkept (b : Builder) : Prop :=
  current_offset b = length (full_text_of b)
  /\ Forall (fun r => fst (fst r) <= snd (fst r)
                      /\ snd (fst r) <= current_offset b)
            (formatting_ranges b)
  /\ Forall (fun r => fst r <= snd r /\ snd r <= current_offset b)
            (bullet_ranges b).



(** Both offsets lie in the part of the body read so far, the start
    before the end. *)
Definition located (hi : nat) (found : option nat * option nat) : Prop :=
  (forall a, fst found = Some a -> 1 <= a /\ a < hi)
  /\ (forall b, snd found = Some b ->
                exists a, fst found = Some a /\ a < b /\ b <= hi).

(** Requests that only restyle. *)
Definition keeps_text (r : Request) : Prop :=
  match r with
  | UpdateTextStyle _ _ _ _ | CreateParagraphBullets _ _ => True
  | InsertText _ _ | DeleteContentRange _ _ => False
  end.




Definition disjoint (d e : marker * nat * nat) : Prop :=
  delete_end d <= delete_start e \/ delete_end e <= delete_start d.

Fixpoint pairwise_disjoint (ds : list (marker * nat * nat)) : Prop :=
  match ds with
  | [] => True
  | d :: rest => Forall (disjoint d) rest /\ pairwise_disjoint rest
  end.

(** Two-character ranges inside [lo, hi) that do not overlap. *)
Definition well_placed (lo hi : nat) (ds : list (marker * nat * nat)) : Prop :=
  Forall (fun d => lo <= delete_start d
                   /\ delete_end d = delete_start d + 2
                   /\ delete_end d <= hi) ds
  /\ pairwise_disjoint ds.



(** The run is a text run whose content holds [m]. *)
Definition run_holds (m : str) (elem : ParagraphElement) : bool :=
  match elem with
  | TextRun text _ => contains m text
  | OtherElement => false
  end.

(** The element is a paragraph with a text run that holds [m]. *)
Definition holds (m : str) (element : StructuralElement) : bool :=
  match paragraph element with
  | Some elements => existsb (run_holds m) elements
  | None => false
  end.

(** After the first run that holds the start marker, a later run of the
    same paragraph holds the end marker. *)
Fixpoint end_after_start_runs (elements : list ParagraphElement) : bool :=
  match elements with
  | [] => false
  | elem :: rest =>
      if run_holds start_marker elem
      then existsb (run_holds end_marker) rest
      else end_after_start_runs rest
  end.

Definition end_after_start (element : StructuralElement) : bool :=
  match paragraph element with
  | Some elements => end_after_start_runs elements
  | None => false
  end.





(** The calls on the pages of one window. *)
Fixpoint delivered (p : Pages) : list Call :=
  match p with
  | LastPage page_calls => page_calls
  | MorePages page_calls next => page_calls ++ delivered next
  | ErrorStatus => []
  end.

(** No request for a page of the window is answered with an error
    status. *)
Fixpoint healthy (p : Pages) : bool :=
  match p with
  | LastPage _ => true
  | MorePages _ next => healthy next
  | ErrorStatus => false
  end.

(** What the summarizer formats a block from. *)
Record SummaryInput : Type := mkSummaryInput {
  s_date : str;
  s_title : option str;
  s_id : str;
  s_parties : list Party;
  s_duration : option Z;
  s_summary : str
}.

Definition block_text (c : SummaryInput) : str :=
  formatted_summary (s_date c) (s_title c) (s_id c) (s_parties c)
                    (s_duration c) (s_summary c).

(** The date has the form the block pattern asks for and no field brings
    a [=] into the block. *)
Definition readable (c : SummaryInput) : Prop :=
  is_date (s_date c) = true
  /\ ~ In "="%char (or_default (s_title c) (lit "Untitled"))
  /\ ~ In "="%char (s_id c)
  /\ ~ In "="%char (participants_str (s_parties c))
  /\ ~ In "="%char (s_summary c).

(** The text of a document into which the blocks have been inserted, the
    head of the list last: every insert puts its block and a newline
    before the text, and the empty document is one newline. *)
Definition document_of (cs : list SummaryInput) : str :=
  concat (map (fun c => block_text c ++ [newline]) cs) ++ [newline].

(** The block as the reader extracts it, with its date. *)
Definition dated_block (c : SummaryInput) : str * str :=
  (s_date c, removelast (block_text c)).

(** * Properties *)

Unset Implicit Arguments.

(** ** Strings *)

Lemma ascii_eqb_true (a b : ascii) : Ascii.eqb a b = true <-> a = b.
Proof. apply Ascii.eqb_eq. Qed.

Lemma str_eqb_eq (a b : str) : str_eqb a b = true <-> a = b.
Proof.
  revert b; induction a as [|x a IH]; intros [|y b]; simpl;
    try (split; [discriminate | discriminate]); try tauto.
  rewrite andb_true_iff, IH, Ascii.eqb_eq.
  split; [intros [-> ->]; reflexivity | intros H; inversion H; auto].
Qed.

Lemma str_eqb_refl (a : str) : str_eqb a a = true.
Proof. apply str_eqb_eq; reflexivity. Qed.

Lemma startswith_spec (p s : str) :
  startswith p s = true <-> exists t, s = p ++ t.
Proof.
  revert s; induction p as [|x p IH]; intros s; simpl.
  - split; [intros _; exists s; reflexivity | reflexivity].
  - destruct s as [|y s].
    + split; [discriminate | intros [t H]; discriminate].
    + rewrite andb_true_iff, Ascii.eqb_eq, IH.
      split.
      * intros [-> [t ->]]; exists t; reflexivity.
      * intros [t H]; inversion H; subst; split; [reflexivity | exists t; reflexivity].
  Qed.

Lemma startswith_app_self (p t : str) : startswith p (p ++ t) = true.
Proof. apply startswith_spec; exists t; reflexivity. Qed.

(** ** Classifier *)

Lemma select_calls_total (calls : list Call) (indices : list Z) :
  exists l, select_calls calls indices = Some l
            /\ Forall2 (fun i c => nth_error calls (Z.to_nat i) = Some c)
                       (kept_indices calls indices) l.
Proof.
  induction indices as [|i rest [l [Hl HF]]]; simpl.
  - exists []; split; [reflexivity | constructor].
  - unfold kept_indices in *; simpl; fold (in_range calls i).
    destruct (in_range calls i) eqn:Hr.
    + unfold in_range in Hr.
      apply andb_true_iff in Hr as [H0 H1].
      apply Z.leb_le in H0; apply Z.ltb_lt in H1.
      destruct (nth_error calls (Z.to_nat i)) as [c|] eqn:Hn.
      * rewrite Hl; exists (c :: l); split; [reflexivity | constructor; assumption].
      * apply nth_error_None in Hn; lia.
    + exists l; split; assumption.
Qed.

Lemma select_calls_incl (calls : list Call) (indices : list Z) (l : list Call) :
  select_calls calls indices = Some l -> incl l calls.
Proof.
  revert l; induction indices as [|i rest IH]; simpl; intros l H.
  - inversion H; intros x [].
  - destruct ((0 <=? i) && (i <? Z.of_nat (length calls)))%Z.
    + destruct (nth_error calls (Z.to_nat i)) as [c|] eqn:Hn; [|discriminate].
      destruct (select_calls calls rest) as [cs|]; [|discriminate].
      inversion H; subst.
      intros x [<- | Hx]; [eapply nth_error_In; eassumption | apply (IH cs eq_refl x Hx)].
    + apply IH; assumption.
Qed.

Lemma interpret_response_incl (calls : list Call) (raw : str) :
  incl (interpret_response calls raw) calls.
Proof.
  unfold interpret_response.
  destruct (str_eqb (strip raw) (lit "NONE") || str_eqb (strip raw) []).
  - intros x [].
  - destruct (parse_indices (strip raw)) as [indices|]; [|apply incl_refl].
    destruct (select_calls calls indices) as [l|] eqn:Hs; [|apply incl_refl].
    eapply select_calls_incl; eassumption.
Qed.

(** C10. For every call list and every response text the classifier
    returns only calls of its input; a parsed response selects exactly
    the calls at its in-range indices, in response order, and the
    out-of-range indices are dropped without an [IndexError]; the empty
    call list gives the empty result and no completion request. *)
Theorem classifier_output_guarded :
  forall (llm : Classifier) (calls : list Call) (company_name : str),
    incl (fst (filter_calls_with_llm llm calls company_name)) calls
    /\ filter_calls_with_llm llm [] company_name = ([], 0)
    /\ (forall indices, exists l,
           select_calls calls indices = Some l
           /\ Forall2 (fun i c => nth_error calls (Z.to_nat i) = Some c)
                      (kept_indices calls indices) l)
    /\ (forall raw indices,
           str_eqb (strip raw) (lit "NONE") || str_eqb (strip raw) [] = false ->
           parse_indices (strip raw) = Some indices ->
           select_calls calls indices = Some (interpret_response calls raw)).
Proof.
  intros llm calls company_name; repeat split.
  - destruct calls as [|c calls]; simpl; [intros x [] | apply interpret_response_incl].
  - apply select_calls_total.
  - intros raw indices Hne Hp.
    unfold interpret_response; rewrite Hne, Hp.
    destruct (select_calls_total calls indices) as [l [-> _]]; reflexivity.
Qed.

(** C8, as amended.  For a non-empty window, a response that is neither
    empty nor [NONE] after stripping and that does not parse as a
    comma-separated list of integers makes the classifier return the
    whole window, with one completion request; a response that is empty
    after stripping gives no calls. *)
Theorem classifier_fails_open_on_unparseable :
  forall (llm : Classifier) (calls : list Call) (company_name : str),
    calls <> [] ->
    let response_text := strip (llm calls company_name) in
    (response_text <> [] -> response_text <> lit "NONE" ->
     parse_indices response_text = None ->
     filter_calls_with_llm llm calls company_name = (calls, 1))
    /\ (response_text = [] ->
        filter_calls_with_llm llm calls company_name = ([], 1)).
Proof.
  intros llm calls company_name Hne response_text.
  destruct calls as [|c calls]; [contradiction|].
  unfold filter_calls_with_llm, interpret_response.
  fold response_text.
  split.
  - intros H1 H2 H3.
    destruct (str_eqb response_text (lit "NONE")) eqn:E1;
      [apply str_eqb_eq in E1; contradiction|].
    destruct (str_eqb response_text []) eqn:E2;
      [apply str_eqb_eq in E2; contradiction|].
    simpl; rewrite H3; reflexivity.
  - intros ->; reflexivity.
Qed.

(** ** Synthesizer *)

Lemma startswith_length (p s : str) :
  startswith p s = true -> length p <= length s.
Proof.
  intros H; apply startswith_spec in H as [t ->].
  rewrite length_app; lia.
Qed.

Lemma find_some (p s : str) (i : nat) :
  find p s = Some i ->
  startswith p (skipn i s) = true /\ i + length p <= length s.
Proof.
  revert i; induction s as [|c s IH]; intros i; simpl.
  - destruct (startswith p []) eqn:E; [|discriminate].
    intros H; inversion H; subst; simpl.
    split; [assumption | apply startswith_length in E; simpl in E; lia].
  - destruct (startswith p (c :: s)) eqn:E.
    + intros H; inversion H; subst; simpl.
      split; [assumption | apply startswith_length in E; simpl in E; lia].
    + destruct (find p s) as [k|]; simpl; [|discriminate].
      intros H; inversion H; subst; simpl.
      destruct (IH k eq_refl) as [H1 H2]; split; [assumption | lia].
Qed.

Lemma rfind_some (p s : str) (j : nat) :
  rfind p s = Some j ->
  startswith p (skipn j s) = true /\ j + length p <= length s.
Proof.
  revert j; induction s as [|c s IH]; intros j; simpl.
  - destruct (startswith p []) eqn:E; [|discriminate].
    intros H; inversion H; subst; simpl.
    split; [assumption | apply startswith_length in E; simpl in E; lia].
  - destruct (rfind p s) as [k|].
    + intros H; inversion H; subst; simpl.
      destruct (IH k eq_refl) as [H1 H2]; split; [assumption | lia].
    + destruct (startswith p (c :: s)) eqn:E; [|discriminate].
      intros H; inversion H; subst; simpl.
      split; [assumption | apply startswith_length in E; simpl in E; lia].
Qed.

Lemma clamp_index_inside (len i : nat) :
  i <= len -> clamp_index len (Z.of_nat i) = i.
Proof.
  intros H; unfold clamp_index.
  destruct (Z.of_nat i <? 0)%Z eqn:E; [apply Z.ltb_lt in E; lia|].
  rewrite Nat2Z.id; lia.
Qed.

(** When both braces are there, the cut runs from the first opening
    brace through the last closing brace. *)
Lemma strip_to_braces_span (t : str) (i j : nat) :
  find (lit "{") t = Some i -> rfind (lit "}") t = Some j ->
  strip_to_braces t = firstn (S j - i) (skipn i t).
Proof.
  intros Hi Hj; unfold strip_to_braces; rewrite Hi, Hj.
  apply find_some in Hi as [_ Hi]; apply rfind_some in Hj as [_ Hj].
  simpl in Hi, Hj; unfold slice.
  replace (Z.of_nat j + 1)%Z with (Z.of_nat (S j)) by lia.
  rewrite !clamp_index_inside by lia; reflexivity.
Qed.

(** C9, as amended.  The text handed to the JSON parser is the stripped
    response; it is cut from the first opening brace to the last closing
    brace only when it starts with a code fence (and then runs from that
    first brace through that last brace), and is left whole otherwise.
    When the parser rejects that text the operation raises an exception
    whose message is the fixed prefix followed by the parser's own
    message, and returns no brief. *)
Theorem synthesizer_parse_contract :
  forall (json_loads : str -> Json + str) (raw : str),
    (startswith (lit "```") (strip raw) = true ->
     json_payload raw = strip_to_braces (strip raw))
    /\ (forall i j,
           startswith (lit "```") (strip raw) = true ->
           find (lit "{") (strip raw) = Some i ->
           rfind (lit "}") (strip raw) = Some j ->
           json_payload raw = firstn (S j - i) (skipn i (strip raw)))
    /\ (startswith (lit "```") (strip raw) = false ->
        json_payload raw = strip raw)
    /\ (forall message,
           json_loads (json_payload raw) = inr message ->
           synthesize_intelligence json_loads raw
           = Raise (Exception (parse_failure_prefix ++ message))).
Proof.
  intros json_loads raw.
  assert (Hfenced : startswith (lit "```") (strip raw) = true ->
                    json_payload raw = strip_to_braces (strip raw)).
  { intros H; unfold json_payload, strip_to_braces; rewrite H; reflexivity. }
  repeat split.
  - exact Hfenced.
  - intros i j H Hi Hj; rewrite (Hfenced H); apply strip_to_braces_span; assumption.
  - intros H; unfold json_payload; rewrite H; reflexivity.
  - intros message H; unfold synthesize_intelligence; rewrite H; reflexivity.
Qed.

(** ** Stable sorting *)

Section StableSortFacts.
Variable A : Type.
Variable before : A -> A -> bool.
Hypothesis before_asym : forall x y, before x y = true -> before y x = false.

Lemma insert_sorted_perm (x : A) (l : list A) :
  Permutation (insert_sorted before x l) (x :: l).
Proof.
  induction l as [|y l IH]; simpl; [apply Permutation_refl|].
  destruct (before y x).
  - eapply Permutation_trans; [apply perm_skip, IH | apply perm_swap].
  - apply Permutation_refl.
Qed.

Lemma stable_sort_perm (l : list A) : Permutation (stable_sort before l) l.
Proof.
  induction l as [|x l IH]; simpl; [constructor|].
  eapply Permutation_trans; [apply insert_sorted_perm | apply perm_skip, IH].
Qed.

Lemma stable_sort_length (l : list A) : length (stable_sort before l) = length l.
Proof. apply Permutation_length, stable_sort_perm. Qed.

Lemma insert_sorted_hd (x y : A) (l : list A) :
  in_order before y x -> HdRel (in_order before) y l -> HdRel (in_order before) y (insert_sorted before x l).
Proof.
  intros Hyx Hl; destruct l as [|z l]; simpl.
  - constructor; assumption.
  - destruct (before z x); constructor; [inversion Hl; assumption | assumption].
Qed.

Lemma insert_sorted_sorted (x : A) (l : list A) :
  Sorted (in_order before) l -> Sorted (in_order before) (insert_sorted before x l).
Proof.
  induction 1 as [|y l Hs IH Hh]; simpl.
  - repeat constructor.
  - destruct (before y x) eqn:E.
    + constructor; [assumption|].
      apply insert_sorted_hd; [apply before_asym; assumption | assumption].
    + constructor; [constructor; assumption | constructor; exact E].
Qed.

Lemma stable_sort_sorted (l : list A) : Sorted (in_order before) (stable_sort before l).
Proof.
  induction l as [|x l IH]; simpl; [constructor | apply insert_sorted_sorted, IH].
Qed.
End StableSortFacts.

Lemma str_ltb_asym (a b : str) : str_ltb a b = true -> str_ltb b a = false.
Proof.
  revert b; induction a as [|x a IH]; intros [|y b]; simpl; try discriminate; auto.
  destruct (code x <? code y) eqn:E1, (code y <? code x) eqn:E2;
    auto; try discriminate.
  apply Nat.ltb_lt in E1, E2; lia.
Qed.

Section StableSortStability.
Variable A : Type.
Variable before : A -> A -> bool.
Variable same : A -> bool.
Hypothesis same_not_before :
  forall x y, same x = true -> same y = true -> before y x = false.

Lemma insert_sorted_same (x : A) (l : list A) :
  filter same (insert_sorted before x l)
  = if same x then x :: filter same l else filter same l.
Proof.
  induction l as [|y l IH]; simpl.
  - destruct (same x); reflexivity.
  - destruct (before y x) eqn:Hb; simpl.
    + rewrite IH; destruct (same y) eqn:Hy; destruct (same x) eqn:Hx;
        try reflexivity.
      rewrite (same_not_before x y Hx Hy) in Hb; discriminate.
    + destruct (same x); reflexivity.
Qed.

Lemma stable_sort_same (l : list A) :
  filter same (stable_sort before l) = filter same l.
Proof.
  induction l as [|x l IH]; simpl; [reflexivity|].
  rewrite insert_sorted_same, IH; reflexivity.
Qed.
End StableSortStability.

Lemma str_ltb_irrefl (a : str) : str_ltb a a = false.
Proof.
  induction a as [|x a IH]; simpl; [reflexivity|].
  rewrite Nat.ltb_irrefl; exact IH.
Qed.

Lemma stable_sort_date_same (blocks : list (str * str)) (date_str : str) :
  filter (fun b => str_eqb (fst b) date_str) (stable_sort date_before blocks)
  = filter (fun b => str_eqb (fst b) date_str) blocks.
Proof.
  apply stable_sort_same.
  intros x y Hx Hy; apply str_eqb_eq in Hx, Hy; unfold date_before.
  rewrite Hx, Hy; apply str_ltb_irrefl.
Qed.

(** ** Discovery *)

Lemma key_gtb_asym (a b : scalar) : key_gtb a b = true -> key_gtb b a = false.
Proof.
  destruct a as [x|x], b as [y|y]; simpl; try discriminate; auto.
  - intros H; apply Z.ltb_lt in H; apply Z.ltb_ge; lia.
  - apply str_ltb_asym.
Qed.

Lemma same_kind_trans (a b c : scalar) :
  same_kind a b = true -> same_kind a c = true -> same_kind b c = true.
Proof. destruct a, b, c; simpl; congruence. Qed.

Lemma comparable_pairwise (l : list Call) :
  comparable l = true ->
  forall a b, In a l -> In b l -> same_kind (started_key a) (started_key b) = true.
Proof.
  destruct l as [|c rest]; simpl; [intros _ a b []|].
  intros H a b Ha Hb.
  rewrite forallb_forall in H.
  assert (Hc : forall d, c = d \/ In d rest ->
                         same_kind (started_key c) (started_key d) = true).
  { intros d [<- | Hd]; [destruct (started_key c); reflexivity | apply H, Hd]. }
  eapply same_kind_trans; [apply Hc, Ha | apply Hc, Hb].
Qed.

Lemma sorted_weaken (A : Type) (R Q : A -> A -> Prop) (l : list A) :
  (forall a b, In a l -> In b l -> R a b -> Q a b) -> Sorted R l -> Sorted Q l.
Proof.
  intros H Hs; induction Hs as [|a l Hs IH Hh]; constructor.
  - apply IH; intros x y Hx Hy; apply H; right; assumption.
  - destruct Hh as [|b l Hab]; constructor.
    apply H; [left; reflexivity | right; left; reflexivity | assumption].
Qed.

Lemma sort_newest_first_ok (l sorted : list Call) :
  sort_newest_first l = Ok sorted ->
  Permutation sorted l /\ Sorted newest_first sorted.
Proof.
  unfold sort_newest_first.
  destruct (comparable l) eqn:Hc; [|discriminate].
  intros H; inversion H; subst; clear H.
  set (before := fun y x : Call => key_gtb (started_key y) (started_key x)).
  assert (Hp : Permutation (stable_sort before l) l) by apply stable_sort_perm.
  split; [assumption|].
  eapply sorted_weaken;
    [|apply stable_sort_sorted; intros x y; unfold before; apply key_gtb_asym].
  intros a b Ha Hb Hab; split; [|exact Hab].
  apply (comparable_pairwise l Hc); eapply Permutation_in; eassumption.
Qed.

Lemma slice_to_nonneg (A : Type) (l : list A) (b : Z) :
  (0 <= b)%Z -> slice_to l b = firstn (Z.to_nat b) l.
Proof.
  intros Hb; unfold slice_to, slice, clamp_index; simpl.
  destruct (b <? 0)%Z eqn:E; [apply Z.ltb_lt in E; lia|].
  rewrite Nat.min_0_r, Nat.sub_0_r; simpl.
  destruct (Nat.min_spec (length l) (Z.to_nat b)) as [[H ->] | [H ->]].
  - rewrite !firstn_all2 by lia; reflexivity.
  - reflexivity.
Qed.

Lemma in_firstn (A : Type) (n : nat) (l : list A) (x : A) :
  In x (firstn n l) -> In x l.
Proof.
  revert l; induction n as [|n IH]; intros [|y l]; simpl; try tauto.
  intros [-> | H]; [left; reflexivity | right; apply IH, H].
Qed.

Lemma scan_window_empty (gong : Gong) (llm : Classifier) (company_name : str)
    (max_calls : Z) (m : nat) (st : Scan) :
  window_filtered gong llm company_name m = Ok [] ->
  exists st',
    scan_window llm company_name max_calls (gong m) st
    = Ok (st', (max_consecutive_empty <=? S (consecutive_empty_windows st))
               || (max_calls <=? Z.of_nat (length (matching_calls st)))%Z)
    /\ matching_calls st' = matching_calls st
    /\ consecutive_empty_windows st' = S (consecutive_empty_windows st)
    /\ windows_scanned st' = S (windows_scanned st).
Proof.
  unfold window_filtered, scan_window.
  destruct (drain_window (gong m) [] 0) as [[window_calls n]|e]; [|discriminate].
  destruct (filter_calls_with_llm llm window_calls company_name) as [filtered asked].
  simpl fst; intros H; inversion H; subst filtered; clear H.
  exists (mkScan (matching_calls st) (total_api_calls st + n)
                 (S (consecutive_empty_windows st)) (S (windows_scanned st))
                 (llm_requests st + asked)).
  split; [|repeat split].
  cbv beta iota zeta; rewrite app_nil_r.
  change (length (@nil Call) =? 0) with true; cbv iota; rewrite andb_true_l.
  destruct (max_consecutive_empty <=? S (consecutive_empty_windows st));
    [reflexivity|].
  destruct (max_calls <=? Z.of_nat (length (matching_calls st)))%Z; reflexivity.
Qed.

(** Once the counter and the windows ahead add up to the threshold, the
    scan runs through exactly those windows and stops, whatever it has
    accumulated before. *)
Lemma scan_stops_when_dormant (gong : Gong) (llm : Classifier)
    (company_name : str) (max_calls : Z) :
  forall (months : list nat) (k : nat) (st : Scan),
    1 <= k -> k <= length months ->
    consecutive_empty_windows st + k = max_consecutive_empty ->
    (Z.of_nat (length (matching_calls st)) < max_calls)%Z ->
    (forall m, In m (firstn k months) ->
               window_filtered gong llm company_name m = Ok []) ->
    exists st',
      scan_windows gong llm company_name max_calls months st = Ok st'
      /\ windows_scanned st' = windows_scanned st + k
      /\ matching_calls st' = matching_calls st
      /\ consecutive_empty_windows st' = max_consecutive_empty.
Proof.
  induction months as [|m later IH]; intros k st Hk Hlen Hsum Hmax Hempty.
  - simpl in Hlen; lia.
  - destruct k as [|k]; [lia|].
    simpl in Hempty.
    destruct (scan_window_empty gong llm company_name max_calls m st
                (Hempty m (or_introl eq_refl)))
      as [st1 [Hstep [Hm [Hc Hw]]]].
    simpl; rewrite Hstep.
    assert (Hz : (max_calls <=? Z.of_nat (length (matching_calls st)))%Z = false)
      by (apply Z.leb_gt; assumption).
    rewrite Hz, orb_false_r.
    destruct k as [|k].
    + assert (Hb : (max_consecutive_empty <=? S (consecutive_empty_windows st)) = true)
        by (apply Nat.leb_le; lia).
      rewrite Hb; exists st1; repeat split; try assumption; lia.
    + assert (Hb : (max_consecutive_empty <=? S (consecutive_empty_windows st)) = false)
        by (apply Nat.leb_gt; lia).
      rewrite Hb.
      destruct (IH (S k) st1) as [st' [Hrun [Hw' [Hm' Hc']]]];
        try lia.
      * simpl in Hlen; lia.
      * rewrite Hm; assumption.
      * intros m' Hin; apply Hempty; right; assumption.
      * exists st'; repeat split; try assumption; try lia.
        rewrite Hm'; assumption.
Qed.

(** The counter after one window: one more when the window added no
    match, zero when it added one; the loop breaks at the threshold. *)
Lemma scan_window_counter (llm : Classifier) (company_name : str)
    (max_calls : Z) (p : Pages) (st st' : Scan) (stop : bool) :
  scan_window llm company_name max_calls p st = Ok (st', stop) ->
  (length (matching_calls st') = length (matching_calls st) ->
   consecutive_empty_windows st' = S (consecutive_empty_windows st))
  /\ (length (matching_calls st) < length (matching_calls st') ->
      consecutive_empty_windows st' = 0)
  /\ (max_consecutive_empty <= consecutive_empty_windows st' -> stop = true).
Proof.
  unfold scan_window.
  destruct (drain_window p [] 0) as [[window_calls n]|e]; [|discriminate].
  destruct (filter_calls_with_llm llm window_calls company_name) as [filtered asked].
  set (c := if length filtered =? 0 then S (consecutive_empty_windows st) else 0).
  assert (Hst : forall b, Ok (mkScan (matching_calls st ++ filtered)
                                     (total_api_calls st + n) c
                                     (S (windows_scanned st))
                                     (llm_requests st + asked), b)
                          = Ok (st', stop) ->
                matching_calls st' = matching_calls st ++ filtered
                /\ consecutive_empty_windows st' = c /\ b = stop).
  { intros b H; inversion H; subst; simpl; auto. }
  intros H.
  assert (Hall : matching_calls st' = matching_calls st ++ filtered
                 /\ consecutive_empty_windows st' = c
                 /\ (max_consecutive_empty <= c -> stop = true)).
  { destruct ((length filtered =? 0) && (max_consecutive_empty <=? c)) eqn:E1.
    - apply Hst in H as [H1 [H2 H3]]; subst stop; auto.
    - destruct (max_calls <=? Z.of_nat (length (matching_calls st ++ filtered)))%Z;
        apply Hst in H as [H1 [H2 H3]]; subst stop; repeat split; auto.
      intros Hc; apply andb_false_iff in E1 as [E1 | E1].
      + unfold c in Hc; rewrite E1 in Hc; unfold max_consecutive_empty in Hc; lia.
      + apply Nat.leb_gt in E1; lia. }
  destruct Hall as [Hm [Hc Hs]]; rewrite Hm, Hc, length_app; unfold c.
  repeat split.
  - intros Hl; assert (length filtered = 0) as -> by lia; reflexivity.
  - intros Hl; destruct (length filtered) eqn:El; [lia | reflexivity].
  - destruct (length filtered =? 0); exact Hs.
Qed.

(** C6, as amended.  The scan keeps a counter of consecutive windows
    without a match, set back to zero by a window with a match, and
    breaks as soon as the counter reaches 6, whatever it has accumulated;
    for a requested maximum of at least one, a platform without a match
    in any window is scanned for exactly 6 windows. *)
Theorem dormancy_early_stop :
  forall (gong : Gong) (llm : Classifier) (company_name : str) (max_calls : Z),
    (forall p st st' stop,
        scan_window llm company_name max_calls p st = Ok (st', stop) ->
        (length (matching_calls st') = length (matching_calls st) ->
         consecutive_empty_windows st' = S (consecutive_empty_windows st))
        /\ (length (matching_calls st) < length (matching_calls st') ->
            consecutive_empty_windows st' = 0)
        /\ (max_consecutive_empty <= consecutive_empty_windows st' ->
            stop = true))
    /\ (forall months st,
           consecutive_empty_windows st = 0 ->
           (Z.of_nat (length (matching_calls st)) < max_calls)%Z ->
           6 <= length months ->
           (forall m, In m (firstn 6 months) ->
                      window_filtered gong llm company_name m = Ok []) ->
           exists st',
             scan_windows gong llm company_name max_calls months st = Ok st'
             /\ windows_scanned st' = windows_scanned st + 6
             /\ matching_calls st' = matching_calls st)
    /\ ((1 <= max_calls)%Z ->
        (forall m, m < max_windows ->
                   window_filtered gong llm company_name m = Ok []) ->
        exists d,
          fetch_all_call_ids gong llm company_name max_calls = Ok d
          /\ windows_scanned (final_scan d) = 6
          /\ call_ids d = [] /\ total_count d = 0).
Proof.
  intros gong llm company_name max_calls; split; [|split].
  - intros p st st' stop H.
    exact (scan_window_counter llm company_name max_calls p st st' stop H).
  - intros months st Hc Hmax Hlen Hempty.
    destruct (scan_stops_when_dormant gong llm company_name max_calls months
                6 st) as [st' [H1 [H2 [H3 _]]]];
      try assumption; try lia.
    + rewrite Hc; reflexivity.
    + exists st'; auto.
  - intros Hmax Hempty.
    destruct (scan_stops_when_dormant gong llm company_name max_calls
                (seq 0 max_windows) 6 initial_scan)
      as [st' [H1 [H2 [H3 _]]]]; try (simpl; lia).
    + reflexivity.
    + intros m Hin; apply Hempty.
      apply in_firstn in Hin; apply in_seq in Hin; lia.
    + unfold fetch_all_call_ids; rewrite H1.
      simpl in H3; rewrite H3; simpl.
      eexists; split; [reflexivity|]; simpl.
      repeat split; [exact H2|].
      unfold slice_to, slice; rewrite skipn_nil, firstn_nil; reflexivity.
Qed.

Lemma slice_to_firstn (A : Type) (l : list A) (b : Z) :
  slice_to l b = firstn (clamp_index (length l) b) l.
Proof.
  unfold slice_to, slice.
  replace (clamp_index (length l) 0) with 0
    by (unfold clamp_index; simpl; rewrite Nat.min_0_r; reflexivity).
  rewrite Nat.sub_0_r; reflexivity.
Qed.

Lemma sorted_firstn (A : Type) (R : A -> A -> Prop) (n : nat) (l : list A) :
  Sorted R l -> Sorted R (firstn n l).
Proof.
  intros H; revert n; induction H as [|a l Hs IH Hh]; intros [|n]; simpl;
    try constructor.
  - apply IH.
  - destruct Hh as [|b l Hab]; destruct n; simpl; constructor; assumption.
Qed.

(** C7, as amended.  On completion the matches of the scan are sorted by
    start time, newest first, the id list is that order cut by the slice
    [[:max_calls]], and the total count is the number of matches before
    the cut; for a non-negative [max_calls] the cut keeps the first
    [max_calls] matches, so that more matches than [max_calls] give
    exactly [max_calls] ids. *)
Theorem discovery_result_shape :
  forall (gong : Gong) (llm : Classifier) (company_name : str)
         (max_calls : Z) (d : Discovery),
    fetch_all_call_ids gong llm company_name max_calls = Ok d ->
    exists sorted kept,
      scan_windows gong llm company_name max_calls (seq 0 max_windows)
                   initial_scan = Ok (final_scan d)
      /\ Permutation sorted (matching_calls (final_scan d))
      /\ Sorted newest_first sorted
      /\ kept = slice_to sorted max_calls
      /\ Sorted newest_first kept
      /\ call_ids d = map meta_id kept
      /\ total_count d = length (matching_calls (final_scan d))
      /\ ((0 <= max_calls)%Z -> kept = firstn (Z.to_nat max_calls) sorted)
      /\ ((0 <= max_calls)%Z -> (max_calls < Z.of_nat (total_count d))%Z ->
          Z.of_nat (length (call_ids d)) = max_calls).
Proof.
  intros gong llm company_name max_calls d; unfold fetch_all_call_ids.
  destruct (scan_windows gong llm company_name max_calls (seq 0 max_windows)
                         initial_scan) as [st|e]; [|discriminate].
  destruct (sort_newest_first (matching_calls st)) as [sorted|e] eqn:Hsort;
    [|discriminate].
  intros H; inversion H; subst; clear H; simpl.
  destruct (sort_newest_first_ok _ _ Hsort) as [Hperm Hsorted].
  exists sorted, (slice_to sorted max_calls).
  repeat split; try assumption.
  - rewrite slice_to_firstn; apply sorted_firstn; assumption.
  - apply slice_to_nonneg.
  - intros H0 Hlt.
    rewrite length_map, slice_to_nonneg, length_firstn by assumption.
    apply Permutation_length in Hperm; lia.
Qed.

(** C6 fails as stated: with a requested maximum of zero the scan of a
    platform without any match stops after its first window. *)
Lemma dormancy_counterexample :
  ~ (forall (gong : Gong) (llm : Classifier) (company_name : str)
            (max_calls : Z),
        (forall m, window_filtered gong llm company_name m = Ok []) ->
        exists d, fetch_all_call_ids gong llm company_name max_calls = Ok d
                  /\ windows_scanned (final_scan d) = 6).
Proof.
  intros H.
  destruct (H (fun _ => LastPage []) (fun _ _ => []) [] 0%Z) as [d [Hd Hw]];
    [reflexivity|].
  vm_compute in Hd; inversion Hd; subst; simpl in Hw; discriminate.
Qed.

(** C7 fails as stated: with [max_calls = -1] and two matches the slice
    keeps one id, although the matches exceed [max_calls]. *)
Lemma discovery_shape_counterexample :
  ~ (forall (gong : Gong) (llm : Classifier) (company_name : str)
            (max_calls : Z) (d : Discovery),
        fetch_all_call_ids gong llm company_name max_calls = Ok d ->
        (max_calls < Z.of_nat (total_count d))%Z ->
        Z.of_nat (length (call_ids d)) = max_calls).
Proof.
  intros H.
  pose (c1 := mkCall (Some (lit "a")) None (Some (JNum 1)) []).
  pose (c2 := mkCall (Some (lit "b")) None (Some (JNum 2)) []).
  specialize (H (fun _ => LastPage [c1; c2]) (fun _ _ => lit "0,1") []
                (-1)%Z).
  vm_compute in H.
  specialize (H _ eq_refl eq_refl); discriminate.
Qed.

(** C8 fails as stated: an empty response gives no calls, not the window. *)
Lemma classifier_empty_response_counterexample :
  ~ (forall (llm : Classifier) (calls : list Call) (company_name : str),
        calls <> [] ->
        strip (llm calls company_name) = []
        \/ parse_indices (strip (llm calls company_name)) = None ->
        fst (filter_calls_with_llm llm calls company_name) = calls).
Proof.
  intros H.
  specialize (H (fun _ _ => []) [mkCall None None None []] []).
  assert (Hne : [mkCall None None None []] <> []) by discriminate.
  specialize (H Hne (or_introl eq_refl)); discriminate.
Qed.

(** C9 fails as stated: text before the first brace stays when the
    response does not start with a code fence. *)
Lemma synthesizer_strip_counterexample :
  ~ (forall raw : str, json_payload raw = strip_to_braces (strip raw)).
Proof.
  intros H; specialize (H (lit "Here: {}")); vm_compute in H; discriminate.
Qed.

(** ** The document store *)

Lemma concat_split_paragraphs (s : Store) : concat (split_paragraphs s) = s.
Proof.
  induction s as [|c s IH]; simpl; [reflexivity|].
  destruct (is_newline (ch c)); simpl; [rewrite IH; reflexivity|].
  destruct (split_paragraphs s) as [|p ps]; simpl in *; subst; reflexivity.
Qed.

Lemma split_paragraphs_nonempty (s : Store) :
  Forall (fun p => p <> []) (split_paragraphs s).
Proof.
  induction s as [|c s IH]; simpl; [constructor|].
  destruct (is_newline (ch c)); [constructor; [discriminate | assumption]|].
  destruct (split_paragraphs s) as [|p ps];
    [repeat constructor; discriminate|].
  inversion IH; subst; constructor; [discriminate | assumption].
Qed.

Lemma run_texts_group_runs (p : list Cell) :
  concat (run_texts (group_runs p)) = map ch p.
Proof.
  induction p as [|c p IH]; simpl; [reflexivity|].
  destruct (group_runs p) as [|[t st|] rest]; simpl in *.
  - rewrite <- IH; reflexivity.
  - destruct (style_eqb (style c) st); simpl; rewrite <- IH; reflexivity.
  - rewrite <- IH; reflexivity.
Qed.

Lemma text_parts_cons (element : StructuralElement) (doc : Document) :
  text_parts (element :: doc)
  = match paragraph element with
    | Some elements => run_texts elements
    | None => []
    end ++ text_parts doc.
Proof. reflexivity. Qed.

Lemma full_doc_text_paragraphs (ps : list (list Cell)) (start : nat) :
  full_doc_text (number_paragraphs start ps) = map ch (concat ps).
Proof.
  unfold full_doc_text; revert start; induction ps as [|p ps IH]; intros start;
    simpl number_paragraphs; [reflexivity|].
  rewrite text_parts_cons; simpl paragraph.
  rewrite concat_app, IH, run_texts_group_runs; simpl.
  rewrite map_app; reflexivity.
Qed.

(** Reading the tree back gives the text of the store. *)
Lemma full_doc_text_get (s : Store) :
  full_doc_text (get_document s) = text_of s.
Proof.
  unfold get_document, full_doc_text; rewrite text_parts_cons; simpl.
  fold (full_doc_text (number_paragraphs 1 (split_paragraphs s))).
  rewrite full_doc_text_paragraphs, concat_split_paragraphs; reflexivity.
Qed.

Lemma insert_at_head (text : str) (s : Store) :
  exists s', apply_request (InsertText 1 text) s = Some s'
             /\ text_of s' = text ++ text_of s
             /\ length s' = length text + length s.
Proof.
  simpl; eexists; split; [reflexivity|]; unfold text_of; split.
  - rewrite map_app, map_map; simpl; rewrite map_id; reflexivity.
  - rewrite length_app, length_map; reflexivity.
Qed.

(** ** Occurrences of the idempotency key *)

Lemma contains_occurrences (p s : str) :
  contains p s = true <-> 0 < occurrences p s.
Proof.
  unfold contains; induction s as [|c s IH]; simpl.
  - destruct (startswith p []); simpl; split; try lia; try discriminate; auto.
  - destruct (startswith p (c :: s)); simpl; [split; [lia | reflexivity]|].
    destruct (find p s); simpl in *; exact IH.
Qed.

Lemma contains_false_occurrences (p s : str) :
  contains p s = false -> occurrences p s = 0.
Proof.
  intros H; destruct (occurrences p s) eqn:E; [reflexivity|].
  assert (Hc : contains p s = true) by (apply contains_occurrences; lia).
  congruence.
Qed.

Lemma startswith_across (c : ascii) (p a b : str) :
  ~ In c p -> startswith p (a ++ c :: b) = startswith p a.
Proof.
  revert a; induction p as [|x p IH]; intros a Hc; [destruct a; reflexivity|].
  destruct a as [|y a]; simpl.
  - destruct (Ascii.eqb x c) eqn:E; [|reflexivity].
    apply Ascii.eqb_eq in E; subst; exfalso; apply Hc; left; reflexivity.
  - rewrite IH; [reflexivity | intros H; apply Hc; right; assumption].
Qed.

(** A pattern without the separating character occurs in a text and in
    what follows the separator, never across it. *)
Lemma occurrences_across (c : ascii) (p a b : str) :
  p <> [] -> ~ In c p ->
  occurrences p (a ++ c :: b) = occurrences p a + occurrences p b.
Proof.
  intros Hp Hc; induction a as [|y a IH].
  - destruct p as [|x p]; [contradiction|].
    simpl app; change (occurrences (x :: p) (c :: b))
      with ((if startswith (x :: p) (c :: b) then 1 else 0)
            + occurrences (x :: p) b).
    replace (startswith (x :: p) (c :: b)) with false; [reflexivity|].
    simpl; destruct (Ascii.eqb x c) eqn:E; [|reflexivity].
    apply Ascii.eqb_eq in E; subst; exfalso; apply Hc; left; reflexivity.
  - change (occurrences p ((y :: a) ++ c :: b))
      with ((if startswith p ((y :: a) ++ c :: b) then 1 else 0)
            + occurrences p (a ++ c :: b)).
    rewrite (startswith_across c p (y :: a) b Hc), IH.
    change (occurrences p (y :: a))
      with ((if startswith p (y :: a) then 1 else 0) + occurrences p a).
    lia.
Qed.

Lemma call_id_key_no_newline (call_id : str) :
  ~ In newline call_id -> ~ In newline (call_id_key call_id).
Proof.
  intros H Hin; unfold call_id_key in Hin; apply in_app_or in Hin as [Hin | Hin];
    [|contradiction].
  vm_compute in Hin.
  repeat (destruct Hin as [Hin | Hin]; [discriminate|]); contradiction.
Qed.

(** ** Idempotent insert *)

Lemma append_when_present (s : Store) (summary call_id : str) :
  contains (call_id_key call_id) (text_of s) = true ->
  append_summary_to_doc s summary call_id = Ok (s, false).
Proof.
  intros H; unfold append_summary_to_doc; rewrite full_doc_text_get, H.
  reflexivity.
Qed.

Lemma append_when_absent (s : Store) (summary call_id : str) :
  contains (call_id_key call_id) (text_of s) = false ->
  exists s', append_summary_to_doc s summary call_id = Ok (s', true)
             /\ text_of s' = (summary ++ [newline]) ++ text_of s.
Proof.
  intros H; unfold append_summary_to_doc; rewrite full_doc_text_get, H.
  destruct (insert_at_head (summary ++ [newline]) s) as [s' [Hs [Ht _]]].
  unfold batchUpdate, apply_requests; rewrite Hs.
  exists s'; split; [reflexivity | assumption].
Qed.

(** C1, as amended.  When the key [Call ID: <id>] occurs in the text of
    the document the insert changes nothing and returns [False];
    otherwise it puts the summary and a newline at offset 1 and returns
    [True].  Hence, for a document without the key, a summary that holds
    the key once and an id without newline, two inserts in a row leave
    exactly one occurrence: the second one changes nothing. *)
Theorem idempotent_insert :
  forall (s : Store) (summary call_id : str),
    (contains (call_id_key call_id) (text_of s) = true ->
     append_summary_to_doc s summary call_id = Ok (s, false))
    /\ (contains (call_id_key call_id) (text_of s) = false ->
        exists s',
          append_summary_to_doc s summary call_id = Ok (s', true)
          /\ text_of s' = (summary ++ [newline]) ++ text_of s)
    /\ (contains (call_id_key call_id) (text_of s) = false ->
        occurrences (call_id_key call_id) summary = 1 ->
        ~ In newline call_id ->
        exists s',
          append_summary_to_doc s summary call_id = Ok (s', true)
          /\ append_summary_to_doc s' summary call_id = Ok (s', false)
          /\ occurrences (call_id_key call_id) (text_of s') = 1).
Proof.
  intros s summary call_id; split; [|split].
  - apply append_when_present.
  - apply append_when_absent.
  - intros Habsent Hone Hnl.
    destruct (append_when_absent s summary call_id Habsent) as [s' [Hs Ht]].
    assert (Hocc : occurrences (call_id_key call_id) (text_of s') = 1).
    { rewrite Ht, <- app_assoc; simpl app.
      rewrite occurrences_across;
        [| unfold call_id_key; discriminate
         | apply call_id_key_no_newline; assumption].
      rewrite Hone, (contains_false_occurrences _ _ Habsent); reflexivity. }
    exists s'; repeat split; try assumption.
    apply append_when_present, contains_occurrences; lia.
Qed.

(** C1 fails as stated: with the blocks of the calls 12 and 13 in the
    document, two inserts for the call 1 change nothing and the key
    [Call ID: 1] occurs twice. *)
Lemma idempotent_insert_counterexample :
  ~ (forall (s : Store) (summary call_id : str),
        exists s1 b1 s2 b2,
          append_summary_to_doc s summary call_id = Ok (s1, b1)
          /\ append_summary_to_doc s1 summary call_id = Ok (s2, b2)
          /\ occurrences (call_id_key call_id) (text_of s2) = 1).
Proof.
  intros H.
  destruct (H (plain_text (lit "Call ID: 12" ++ [newline]
                           ++ lit "Call ID: 13" ++ [newline]))
              (lit "=== CALL SUMMARY: 2024-01-05 - Kickoff ===" ++ [newline]
               ++ lit "Call ID: 1" ++ [newline] ++ lit "===")
              (lit "1"))
    as [s1 [b1 [s2 [b2 [H1 [H2 H3]]]]]].
  vm_compute in H1; inversion H1; subst s1 b1; clear H1.
  vm_compute in H2; inversion H2; subst s2 b2; clear H2.
  vm_compute in H3; discriminate.
Qed.

(** ** Scanning with [finditer] *)

Section FinditerFacts.
Variable B : Type.
Variable match_here : str -> option (nat * B).

(** Every reported match starts at an offset the scan reaches and is
    what the pattern gives there. *)
Lemma finditer_from_sound (s : str) :
  forall (pos skip a e : nat) (b : B),
    In (a, e, b) (finditer_from match_here s pos skip) ->
    pos + skip <= a /\ a < pos + length s
    /\ match_here (skipn (a - pos) s) = Some (e - a, b).
Proof.
  induction s as [|c s IH]; intros pos skip a e b; simpl; [tauto|].
  destruct skip as [|k].
  - destruct (match_here (c :: s)) as [[len x]|] eqn:Hm.
    + intros [Heq | Hin].
      * inversion Heq; subst.
        rewrite Nat.sub_diag; simpl.
        replace (_ + len - _) with len by lia.
        repeat split; try lia; assumption.
      * apply IH in Hin as [H1 [H2 H3]].
        replace (a - pos) with (S (a - S pos)) by lia; simpl.
        repeat split; try lia; assumption.
    + intros Hin; apply IH in Hin as [H1 [H2 H3]].
      replace (a - pos) with (S (a - S pos)) by lia; simpl.
      repeat split; try lia; assumption.
  - intros Hin; apply IH in Hin as [H1 [H2 H3]].
    replace (a - pos) with (S (a - S pos)) by lia; simpl.
    repeat split; try lia; assumption.
Qed.

(** Every later match starts where the earlier one has ended. *)
Lemma finditer_from_ordered (s : str) :
  forall (pos skip : nat),
    Sorted (fun m n : nat * nat * B => snd (fst m) <= fst (fst n))
           (finditer_from match_here s pos skip).
Proof.
  induction s as [|c s IH]; intros pos skip; simpl; [constructor|].
  destruct skip as [|k]; [|apply IH].
  destruct (match_here (c :: s)) as [[len x]|] eqn:Hm; [|apply IH].
  constructor; [apply IH|].
  destruct (finditer_from match_here s (S pos) (len - 1))
    as [|[[a e] b] rest] eqn:Hr; constructor; simpl.
  assert (Hin : In (a, e, b) (finditer_from match_here s (S pos) (len - 1)))
    by (rewrite Hr; left; reflexivity).
  apply finditer_from_sound in Hin as [H1 _]; lia.
Qed.

(** No match is overlooked: wherever the pattern matches, a reported
    match starts there or covers the place. *)
Lemma finditer_from_complete (s : str) :
  forall (pos skip i len : nat) (b : B),
    skip <= i -> i < length s ->
    match_here (skipn i s) = Some (len, b) ->
    In (pos + i, pos + i + len, b) (finditer_from match_here s pos skip)
    \/ exists a e x, In (a, e, x) (finditer_from match_here s pos skip)
                     /\ a < pos + i < e.
Proof.
  induction s as [|c s IH]; intros pos skip i len b Hs Hi Hm;
    [simpl in Hi; lia|].
  simpl in Hi; simpl finditer_from.
  destruct skip as [|k].
  - destruct (match_here (c :: s)) as [[len0 x0]|] eqn:H0.
    + destruct i as [|i].
      * simpl in Hm; rewrite H0 in Hm; inversion Hm; subst.
        left; left; rewrite Nat.add_0_r; reflexivity.
      * destruct (Nat.le_gt_cases (len0 - 1) i) as [Hle | Hgt].
        -- destruct (IH (S pos) (len0 - 1) i len b Hle ltac:(lia) Hm)
             as [Hin | [a [e [x [Hin Hr]]]]].
           ++ left; right.
              replace (pos + S i) with (S pos + i) by lia; assumption.
           ++ right; exists a, e, x; split; [right; assumption | lia].
        -- right; exists pos, (pos + len0), x0; split;
             [left; reflexivity | lia].
    + destruct i as [|i]; [simpl in Hm; congruence|].
      destruct (IH (S pos) 0 i len b ltac:(lia) ltac:(lia) Hm)
        as [Hin | [a [e [x [Hin Hr]]]]].
      * left; replace (pos + S i) with (S pos + i) by lia; assumption.
      * right; exists a, e, x; split; [assumption | lia].
  - destruct i as [|i]; [lia|].
    destruct (IH (S pos) k i len b ltac:(lia) ltac:(lia) Hm)
      as [Hin | [a [e [x [Hin Hr]]]]].
    + left; replace (pos + S i) with (S pos + i) by lia; assumption.
    + right; exists a, e, x; split; [assumption | lia].
Qed.
End FinditerFacts.

(** ** Read and normalize *)

Lemma lazy_until_bound (ok : ascii -> bool) (p s : str) (j : nat) :
  lazy_until ok p s = Some j -> j + length p <= length s.
Proof.
  revert j; induction s as [|c s IH]; intros j; simpl.
  - destruct (startswith p []) eqn:E; [|discriminate].
    intros H; inversion H; subst; apply startswith_length in E; simpl in *; lia.
  - destruct (startswith p (c :: s)) eqn:E.
    + intros H; inversion H; subst; apply startswith_length in E; simpl in *; lia.
    + destruct (ok c); [|discriminate].
      destruct (lazy_until ok p s) as [k|]; simpl; [|discriminate].
      intros H; inversion H; subst; specialize (IH k eq_refl); lia.
Qed.

Lemma match_summary_at_positive (s : str) (len : nat) (d : str) :
  match_summary_at s = Some (len, d) -> 37 < len.
Proof.
  unfold match_summary_at.
  destruct (startswith summary_prefix s); [|discriminate].
  destruct (is_date (firstn 10 (skipn 18 s))
            && startswith (lit " - ") (skipn 10 (skipn 18 s))); [|discriminate].
  destruct (skipn 13 (skipn 18 s)) as [|c rest]; [discriminate|].
  destruct (lazy_until any_char triple_equals rest) as [j|]; [|discriminate].
  destruct (lazy_until any_char triple_equals (skipn (j + 3) rest)) as [k|];
    [|discriminate].
  intros H; injection H as H1 _; lia.
Qed.

Lemma match_summary_at_inside (s : str) (len : nat) (d : str) :
  match_summary_at s = Some (len, d) ->
  len <= length s /\ is_date d = true /\ d = firstn 10 (skipn 18 s).
Proof.
  unfold match_summary_at.
  destruct (startswith summary_prefix s); [|discriminate].
  destruct (is_date (firstn 10 (skipn 18 s))) eqn:Hd; [|discriminate].
  destruct (startswith (lit " - ") (skipn 10 (skipn 18 s))); [|discriminate].
  cbn [andb].
  destruct (skipn 13 (skipn 18 s)) as [|c rest] eqn:Hs; [discriminate|].
  destruct (lazy_until any_char triple_equals rest) as [j|] eqn:Hj;
    [|discriminate].
  destruct (lazy_until any_char triple_equals (skipn (j + 3) rest)) as [k|]
    eqn:Hk; [|discriminate].
  intros H; injection H as <- <-.
  apply lazy_until_bound in Hk; rewrite length_skipn in Hk.
  apply lazy_until_bound in Hj.
  change (length triple_equals) with 3 in Hj, Hk.
  assert (Hlen : length (skipn 13 (skipn 18 s)) = S (length rest))
    by (rewrite Hs; reflexivity).
  rewrite !length_skipn in Hlen.
  repeat split; [lia | exact Hd].
Qed.

(** The matches [finditer] reports for the block pattern are matches of
    the pattern, stand in text order without overlap, and overlook no
    place where the pattern matches outside an earlier match. *)
Lemma finditer_blocks (full_text : str) :
  let found := finditer match_summary_at full_text in
  Forall (block_match full_text) found
  /\ Sorted (fun m n : nat * nat * str => snd (fst m) <= fst (fst n)) found
  /\ (forall i len d,
         i < length full_text ->
         match_summary_at (skipn i full_text) = Some (len, d) ->
         In (i, i + len, d) found
         \/ exists a e x, In (a, e, x) found /\ a < i < e).
Proof.
  split; [|split].
  - apply Forall_forall; intros [[a e] d] Hin.
    apply finditer_from_sound in Hin as [_ [Ha Hm]].
    rewrite Nat.sub_0_r in Hm; simpl in Ha.
    pose proof (match_summary_at_positive _ _ _ Hm) as Hpos.
    destruct (match_summary_at_inside _ _ _ Hm) as [Hlen [Hd Hdate]].
    rewrite length_skipn in Hlen.
    repeat split; try assumption; try lia.
    rewrite Hdate, skipn_skipn; unfold span; do 2 f_equal; lia.
  - apply finditer_from_ordered.
  - intros i len d Hi Hm.
    exact (finditer_from_complete _ match_summary_at full_text 0 0 i len d
             ltac:(lia) Hi Hm).
Qed.

Lemma str_ltb_date_asym (x y : str * str) :
  date_before x y = true -> date_before y x = false.
Proof. unfold date_before; apply str_ltb_asym. Qed.

(** C2, as amended.  The reader works on the matches of the block
    pattern in the text of the document: each is a match of the pattern
    with the date of its header, they stand left to right without
    overlap, and no place where the pattern matches is overlooked unless
    it lies inside an earlier match.  The blocks the reader keeps are the
    spans of these matches with their dates.  When there is at least one,
    the result is all of these blocks joined by newlines, rearranged into
    non-decreasing date order, whatever their order in the document,
    blocks of one date keeping their order; when there is none, the
    result is the text of the document as it is. *)
Theorem read_and_normalize :
  forall (s : Store),
    let full_text := text_of s in
    exists found : list (nat * nat * str),
      Forall (block_match full_text) found
      /\ Sorted (fun m n : nat * nat * str => snd (fst m) <= fst (fst n)) found
      /\ (forall i len d,
             i < length full_text ->
             match_summary_at (skipn i full_text) = Some (len, d) ->
             In (i, i + len, d) found
             \/ exists a e x, In (a, e, x) found /\ a < i < e)
      /\ extract_summaries full_text = map (block_at full_text) found
      /\ (found = [] -> read_summaries_doc s = full_text)
      /\ (found <> [] ->
          exists sorted,
            Permutation sorted (map (block_at full_text) found)
            /\ Sorted date_order sorted
            /\ (forall date_str,
                  filter (fun b => str_eqb (fst b) date_str) sorted
                  = filter (fun b => str_eqb (fst b) date_str)
                           (map (block_at full_text) found))
            /\ read_summaries_doc s = join [newline] (map snd sorted)).
Proof.
  intros s full_text; exists (finditer match_summary_at full_text).
  destruct (finditer_blocks full_text) as [Hsound [Hordered Hcomplete]].
  assert (Hblocks : extract_summaries full_text
                    = map (block_at full_text)
                          (finditer match_summary_at full_text))
    by reflexivity.
  repeat split; try assumption.
  - intros H; unfold read_summaries_doc; rewrite full_doc_text_get.
    fold full_text; rewrite Hblocks, H; reflexivity.
  - intros H.
    exists (stable_sort date_before (extract_summaries full_text)).
    rewrite <- Hblocks; split; [|split; [|split]].
    + apply stable_sort_perm.
    + apply (stable_sort_sorted _ date_before str_ltb_date_asym).
    + intros date_str; apply stable_sort_date_same.
    + unfold read_summaries_doc; rewrite full_doc_text_get.
      fold full_text; unfold extract_summaries.
      destruct (finditer match_summary_at full_text);
        [contradiction | reflexivity].
Qed.

(** C2 fails as stated: a text without any block is returned as it is,
    not as the join of no blocks. *)
Lemma read_and_normalize_counterexample :
  ~ (forall (s : Store),
        read_summaries_doc s
        = join [newline]
               (map snd (stable_sort date_before
                                     (extract_summaries (text_of s))))).
Proof.
  intros H; specialize (H (plain_text (lit "notes" ++ [newline]))).
  vm_compute in H; discriminate.
Qed.

(** ** Locating the old section *)

Lemma located_mono (hi hi' : nat) (found : option nat * option nat) :
  hi <= hi' -> located hi found -> located hi' found.
Proof.
  intros Hle [H1 H2]; split.
  - intros a Ha; destruct (H1 a Ha); lia.
  - intros b Hb; destruct (H2 b Hb) as [a [Ha [Hab Hb']]].
    exists a; repeat split; [assumption | lia | lia].
Qed.

Lemma scan_runs_located (st en : nat) (par : option (list ParagraphElement))
    (elements : list ParagraphElement) :
  1 <= st -> st < en ->
  forall found,
    located en found ->
    located en (scan_runs (mkElement (Some st) (Some en) par) elements found).
Proof.
  intros Hst Hen; induction elements as [|[text sty|] rest IH]; intros found Hf;
    simpl; [assumption | | apply IH, Hf].
  destruct (contains start_marker text && is_none (fst found)) eqn:E1.
  - apply IH; apply andb_true_iff in E1 as [_ E1].
    destruct found as [[a|] b]; [discriminate|]; simpl.
    destruct Hf as [_ H2]; split; simpl.
    + intros a Ha; inversion Ha; subst; lia.
    + intros b' Hb; destruct (H2 b' Hb) as [a [Ha _]]; discriminate.
  - destruct (contains end_marker text && negb (is_none (fst found))) eqn:E2;
      [|apply IH, Hf].
    apply andb_true_iff in E2 as [_ E2].
    destruct found as [[a|] b]; [|discriminate]; simpl.
    destruct Hf as [H1 _]; split; simpl; [exact H1|].
    intros b' Hb; inversion Hb; subst.
    destruct (H1 a eq_refl); exists a; repeat split; lia.
Qed.

Lemma scan_paragraphs_located (ps : list (list Cell)) :
  Forall (fun p => p <> []) ps ->
  forall start found,
    1 <= start -> located start found ->
    located (start + length (concat ps))
            (fold_left (fun found element =>
                          match paragraph element with
                          | Some elements => scan_runs element elements found
                          | None => found
                          end)
                       (number_paragraphs start ps) found).
Proof.
  induction 1 as [|p ps Hp Hps IH]; intros start found Hs Hf; simpl.
  - rewrite Nat.add_0_r; assumption.
  - rewrite length_app, Nat.add_assoc.
    assert (Hlen : 0 < length p) by (destruct p; [contradiction | simpl; lia]).
    apply IH; [lia|].
    apply scan_runs_located; [lia | lia|].
    eapply located_mono; [|eassumption]; lia.
Qed.

Lemma old_intelligence_range (s : Store) (a b : nat) :
  old_intelligence (get_document s) = Some (a, b) ->
  1 <= a /\ a < b /\ b <= S (length s).
Proof.
  unfold old_intelligence, scan_markers, get_document; simpl fold_left.
  assert (H : located (1 + length (concat (split_paragraphs s)))
                      (fold_left
                         (fun found element =>
                            match paragraph element with
                            | Some elements => scan_runs element elements found
                            | None => found
                            end)
                         (number_paragraphs 1 (split_paragraphs s))
                         (None, None))).
  { apply scan_paragraphs_located;
      [apply split_paragraphs_nonempty | lia|].
    split; simpl; intros x Hx; discriminate. }
  rewrite concat_split_paragraphs in H.
  match type of H with located _ ?f => destruct f as [[a'|] [b'|]] end;
    try discriminate.
  intros Heq; injection Heq as -> ->.
  destruct H as [H1 H2]; simpl in H1, H2.
  destruct (H2 b eq_refl) as [a0 [Ha [Hab Hb]]].
  injection Ha as Ha; subst a0.
  destruct (H1 a eq_refl); lia.
Qed.

(** ** Requests that leave the text alone *)

Lemma map_range_text (f : Cell -> Cell) (i a b : nat) (s : Store) :
  (forall c, ch (f c) = ch c) -> text_of (map_range f i a b s) = text_of s.
Proof.
  intros Hf; revert i; induction s as [|c s IH]; intros i; simpl;
    [reflexivity|].
  unfold text_of in IH; rewrite IH.
  destruct ((a <=? i) && (i <? b)); [rewrite Hf|]; reflexivity.
Qed.

Lemma apply_requests_keep_text (rs : list Request) :
  Forall keeps_text rs ->
  forall s, exists s', apply_requests rs s = Some s' /\ text_of s' = text_of s.
Proof.
  induction 1 as [|r rs Hr Hrs IH]; intros s; simpl.
  - exists s; split; reflexivity.
  - destruct r as [| |a b set_bold set_size|a b]; simpl in Hr; try contradiction;
      simpl.
    + destruct (IH (map_range (restyle set_bold set_size) 1 a b s))
        as [s' [Hs Ht]].
      exists s'; split; [assumption|].
      rewrite Ht; apply map_range_text; reflexivity.
    + apply IH.
Qed.

Lemma batch_if_any_keep_text (rs : list Request) (s : Store) :
  Forall keeps_text rs ->
  exists s', batch_if_any rs s = Ok s' /\ text_of s' = text_of s.
Proof.
  intros H; destruct rs as [|r rs]; simpl batch_if_any.
  - exists s; split; reflexivity.
  - destruct (apply_requests_keep_text _ H s) as [s' [Hs Ht]].
    exists s'; unfold batchUpdate; rewrite Hs; split; [reflexivity | assumption].
Qed.

Lemma styling_requests_keep_text (i : nat) (rs : list (nat * nat * style_type)) :
  Forall keeps_text (map (styling_request i) rs).
Proof.
  apply Forall_forall; intros r Hr; apply in_map_iff in Hr as [[[a b] k] [<- _]].
  destruct k; exact I.
Qed.

Lemma bullet_requests_keep_text (i : nat) (rs : list (nat * nat)) :
  Forall keeps_text (map (bullet_request i) rs).
Proof.
  apply Forall_forall; intros r Hr; apply in_map_iff in Hr as [[a b] [<- _]].
  exact I.
Qed.

Lemma text_of_length (s : Store) : length (text_of s) = length s.
Proof. apply length_map. Qed.

(** The state after the insertion and the two styling batches. *)
Lemma replace_prefix (s : Store) (content : Builder) :
  exists s1 s2 s3,
    batchUpdate [InsertText 1 (full_text_of content)] s = Ok s1
    /\ batch_if_any (map (styling_request 1) (formatting_ranges content)) s1
       = Ok s2
    /\ batch_if_any (map (bullet_request 1) (bullet_ranges content)) s2 = Ok s3
    /\ text_of s1 = full_text_of content ++ text_of s
    /\ text_of s3 = full_text_of content ++ text_of s.
Proof.
  destruct (insert_at_head (full_text_of content) s) as [s1 [H1 [T1 _]]].
  destruct (batch_if_any_keep_text _ s1
              (styling_requests_keep_text 1 (formatting_ranges content)))
    as [s2 [H2 T2]].
  destruct (batch_if_any_keep_text _ s2
              (bullet_requests_keep_text 1 (bullet_ranges content)))
    as [s3 [H3 T3]].
  exists s1, s2, s3; repeat split; try assumption.
  - unfold batchUpdate, apply_requests; rewrite H1; reflexivity.
  - congruence.
Qed.

Lemma firstn_past_prefix (A : Type) (k : nat) (l1 l2 : list A) :
  firstn (length l1 + k) (l1 ++ l2) = l1 ++ firstn k l2.
Proof.
  rewrite firstn_app, firstn_all2 by lia.
  replace (length l1 + k - length l1) with k by lia; reflexivity.
Qed.

Lemma skipn_past_prefix (A : Type) (k : nat) (l1 l2 : list A) :
  skipn (length l1 + k) (l1 ++ l2) = skipn k l2.
Proof.
  rewrite skipn_app, skipn_all2 by lia.
  replace (length l1 + k - length l1) with k by lia; reflexivity.
Qed.

Lemma delete_shifted (new_text : str) (s s3 : Store) (a b : nat) :
  text_of s3 = new_text ++ text_of s ->
  1 <= a -> a < b -> b <= S (length s) ->
  exists s',
    batchUpdate [DeleteContentRange (a + length new_text) (b + length new_text)]
                s3 = Ok s'
    /\ text_of s'
       = new_text ++ firstn (a - 1) (text_of s) ++ skipn (b - 1) (text_of s).
Proof.
  intros Ht Ha Hab Hb.
  assert (Hlen : length s3 = length new_text + length s)
    by (rewrite <- (text_of_length s3), Ht, length_app, text_of_length;
        reflexivity).
  unfold batchUpdate, apply_requests, apply_request.
  replace ((1 <=? a + length new_text)
           && (a + length new_text <? b + length new_text)
           && (b + length new_text <=? S (length s3))) with true.
  - eexists; split; [reflexivity|].
    unfold text_of in *; rewrite map_app, <- firstn_map, <- skipn_map, Ht.
    replace (a + length new_text - 1) with (length new_text + (a - 1)) by lia.
    replace (b + length new_text - 1) with (length new_text + (b - 1)) by lia.
    rewrite firstn_past_prefix, skipn_past_prefix, app_assoc; reflexivity.
  - symmetry; rewrite !andb_true_iff; repeat split;
      [apply Nat.leb_le | apply Nat.ltb_lt | apply Nat.leb_le]; lia.
Qed.

(** ** What the marker scan locates *)

Lemma scan_runs_before (element : StructuralElement)
    (elements : list ParagraphElement) (x : option nat) :
  existsb (run_holds start_marker) elements = false ->
  scan_runs element elements (None, x) = (None, x).
Proof.
  induction elements as [|[text sty|] rest IH]; cbn [existsb scan_runs];
    intros H; [reflexivity | | apply IH; exact H].
  apply orb_false_iff in H as [H1 H2]; cbn [run_holds] in H1.
  cbn [fst is_none negb]; rewrite H1, andb_false_r; cbn [andb].
  apply IH; exact H2.
Qed.

Lemma scan_runs_after (element : StructuralElement)
    (elements : list ParagraphElement) (a : nat) (x : option nat) :
  scan_runs element elements (Some a, x)
  = (Some a, if existsb (run_holds end_marker) elements
             then endIndex element else x).
Proof.
  induction elements as [|[text sty|] rest IH]; cbn [existsb scan_runs];
    [reflexivity | | exact IH].
  cbn [fst snd is_none negb run_holds]; rewrite andb_false_r, andb_true_r.
  destruct (contains end_marker text); [reflexivity | exact IH].
Qed.

Lemma scan_runs_start (element : StructuralElement)
    (elements : list ParagraphElement) (a : nat) (x : option nat) :
  startIndex element = Some a ->
  existsb (run_holds start_marker) elements = true ->
  scan_runs element elements (None, x)
  = (Some a, if end_after_start_runs elements then endIndex element else x).
Proof.
  intros Ha; induction elements as [|[text sty|] rest IH];
    cbn [existsb scan_runs end_after_start_runs]; intros H;
    [discriminate | | apply IH; exact H].
  cbn [fst snd is_none negb run_holds] in *; rewrite andb_true_r, andb_false_r.
  destruct (contains start_marker text).
  - rewrite Ha; apply scan_runs_after.
  - apply IH; exact H.
Qed.

(** Once the start is found, every later paragraph that holds the end
    marker moves the end: the last one stays. *)
Lemma scan_after_start (doc : Document) (a : nat) :
  forall x,
    exists y,
      fold_left (fun found element =>
                   match paragraph element with
                   | Some elements => scan_runs element elements found
                   | None => found
                   end) doc (Some a, x) = (Some a, y)
      /\ ((Forall (fun el => holds end_marker el = false) doc /\ y = x)
          \/ exists mid q after,
               doc = mid ++ q :: after
               /\ holds end_marker q = true
               /\ Forall (fun el => holds end_marker el = false) after
               /\ y = endIndex q).
Proof.
  induction doc as [|el doc IH]; intros x; cbn [fold_left].
  - exists x; split; [reflexivity | left; split; [constructor | reflexivity]].
  - assert (Hstep : match paragraph el with
                    | Some elements => scan_runs el elements (Some a, x)
                    | None => (Some a, x)
                    end
                    = (Some a, if holds end_marker el then endIndex el else x)).
    { unfold holds; destruct (paragraph el) as [elements|];
        [apply scan_runs_after | reflexivity]. }
    rewrite Hstep.
    destruct (IH (if holds end_marker el then endIndex el else x))
      as [y [Hy [[Hnone Hyx] | [mid [q [after [Hdoc [Hq [Hafter Hyx]]]]]]]]];
      exists y.
    + split; [exact Hy|].
      destruct (holds end_marker el) eqn:Hel.
      * right; exists [], el, doc; repeat split; assumption.
      * left; split; [constructor; assumption | exact Hyx].
    + split; [exact Hy|].
      right; exists (el :: mid), q, after; rewrite Hdoc.
      repeat split; assumption.
Qed.

(** The scan finds the first paragraph that holds the start marker and,
    from there on, the last paragraph that holds the end marker. *)
Lemma scan_markers_found (doc : Document) :
  (forall el, In el doc -> paragraph el <> None ->
              exists i, startIndex el = Some i) ->
  forall a b,
    scan_markers doc = (Some a, Some b) ->
    exists before p rest,
      doc = before ++ p :: rest
      /\ Forall (fun el => holds start_marker el = false) before
      /\ holds start_marker p = true
      /\ startIndex p = Some a
      /\ ((end_after_start p = true
           /\ Forall (fun el => holds end_marker el = false) rest
           /\ endIndex p = Some b)
          \/ exists mid q after,
               rest = mid ++ q :: after
               /\ holds end_marker q = true
               /\ Forall (fun el => holds end_marker el = false) after
               /\ endIndex q = Some b).
Proof.
  unfold scan_markers; induction doc as [|el doc IH]; intros Hidx a b;
    cbn [fold_left]; [discriminate|].
  destruct (holds start_marker el) eqn:Hs.
  - pose proof Hs as Hs'; unfold holds in Hs'.
    destruct (paragraph el) as [elements|] eqn:Hp; [|discriminate].
    destruct (Hidx el (or_introl eq_refl)) as [i Hi];
      [rewrite Hp; discriminate|].
    rewrite (scan_runs_start el elements i None Hi Hs').
    destruct (scan_after_start doc i
                (if end_after_start_runs elements then endIndex el else None))
      as [y [Hy Hcases]].
    rewrite Hy; intros Heq; injection Heq as -> ->.
    exists [], el, doc; repeat split; try assumption; [constructor|].
    destruct Hcases as [[Hnone Hx] | [mid [q [after [-> [Hq [Hafter Hx]]]]]]].
    + left; unfold end_after_start; rewrite Hp.
      destruct (end_after_start_runs elements); [|discriminate].
      repeat split; [assumption | symmetry; exact Hx].
    + right; exists mid, q, after; repeat split; try assumption.
      symmetry; exact Hx.
  - assert (Hstep : match paragraph el with
                    | Some elements => scan_runs el elements (None, None)
                    | None => (None, None)
                    end = (None, None)).
    { unfold holds in Hs; destruct (paragraph el) as [elements|];
        [apply scan_runs_before; exact Hs | reflexivity]. }
    rewrite Hstep; intros Hscan.
    destruct (IH (fun x Hx => Hidx x (or_intror Hx)) a b Hscan)
      as [before [p [rest [-> [Hb H]]]]].
    exists (el :: before), p, rest; repeat split; try apply H.
    constructor; assumption.
Qed.

Lemma full_doc_text_app (l1 l2 : Document) :
  full_doc_text (l1 ++ l2) = full_doc_text l1 ++ full_doc_text l2.
Proof.
  unfold full_doc_text, text_parts; rewrite flat_map_app; apply concat_app.
Qed.

(** The offsets of a paragraph are those of its text in the body. *)
Lemma number_paragraphs_offsets (ps : list (list Cell)) :
  forall start l1 el l2,
    number_paragraphs start ps = l1 ++ el :: l2 ->
    startIndex el = Some (start + length (full_doc_text l1))
    /\ endIndex el = Some (start + length (full_doc_text (l1 ++ [el]))).
Proof.
  induction ps as [|p ps IH]; intros start l1 el l2; cbn [number_paragraphs].
  - destruct l1; discriminate.
  - destruct l1 as [|e0 l1]; cbn [app]; intros H; injection H as H0 H1.
    + subst el; cbn [startIndex endIndex]; unfold full_doc_text.
      cbn [text_parts flat_map paragraph]; rewrite !app_nil_r.
      rewrite run_texts_group_runs, length_map; simpl.
      rewrite Nat.add_0_r; split; reflexivity.
    + destruct (IH _ _ _ _ H1) as [Hs He]; rewrite Hs, He.
      change (e0 :: l1 ++ [el]) with ([e0] ++ (l1 ++ [el])).
      change (e0 :: l1) with ([e0] ++ l1).
      rewrite !(full_doc_text_app [e0]), !length_app.
      assert (L : length (full_doc_text [e0]) = length p).
      { subst e0; unfold full_doc_text.
        cbn [text_parts flat_map paragraph]; rewrite app_nil_r.
        rewrite run_texts_group_runs; apply length_map. }
      rewrite L; split; f_equal; lia.
Qed.

Lemma get_document_offsets (s : Store) (l1 l2 : Document)
    (el : StructuralElement) :
  get_document s = l1 ++ el :: l2 ->
  paragraph el <> None ->
  startIndex el = Some (1 + length (full_doc_text l1))
  /\ endIndex el = Some (1 + length (full_doc_text (l1 ++ [el]))).
Proof.
  unfold get_document; destruct l1 as [|e0 l1]; cbn [app]; intros H Hp;
    injection H as H0 H1.
  - subst el; contradiction Hp; reflexivity.
  - destruct (number_paragraphs_offsets _ _ _ _ _ H1) as [Hs He].
    subst e0; rewrite Hs, He; split; reflexivity.
Qed.

Lemma holds_paragraph (m : str) (el : StructuralElement) :
  holds m el = true -> paragraph el <> None.
Proof. unfold holds; destruct (paragraph el); [discriminate | discriminate]. Qed.

Lemma get_document_indexed (s : Store) (el : StructuralElement) :
  In el (get_document s) -> paragraph el <> None ->
  exists i, startIndex el = Some i.
Proof.
  intros Hin Hp; apply in_split in Hin as [l1 [l2 Heq]].
  destruct (get_document_offsets s l1 l2 el Heq Hp) as [Hs _].
  eexists; exact Hs.
Qed.

(** The range the scan locates, as paragraphs of the document. *)
Lemma old_intelligence_section (s : Store) (a b : nat) :
  old_intelligence (get_document s) = Some (a, b) ->
  exists before section after,
    get_document s = before ++ section ++ after
    /\ Forall (fun el => holds start_marker el = false) before
    /\ (exists p tail,
          section = p :: tail
          /\ holds start_marker p = true
          /\ ((tail = [] /\ end_after_start p = true)
              \/ exists mid q,
                   tail = mid ++ [q] /\ holds end_marker q = true))
    /\ Forall (fun el => holds end_marker el = false) after
    /\ a = 1 + length (full_doc_text before)
    /\ b = a + length (full_doc_text section).
Proof.
  unfold old_intelligence.
  destruct (scan_markers (get_document s)) as [[a'|] [b'|]] eqn:Hscan;
    try discriminate.
  intros H; injection H as -> ->.
  destruct (scan_markers_found (get_document s) (get_document_indexed s)
                               a b Hscan)
    as [before [p [rest [Hdoc [Hbefore [Hp [Ha Hend]]]]]]].
  destruct (get_document_offsets s before rest p Hdoc
                                 (holds_paragraph _ _ Hp)) as [Ha' He'].
  rewrite Ha in Ha'; injection Ha' as ->.
  destruct Hend as [[Hpe [Hrest Hb]] | [mid [q [after [-> [Hq [Hafter Hb]]]]]]].
  - exists before, [p], rest; repeat split; try assumption.
    + exists p, []; repeat split; [assumption | left; split; [reflexivity | assumption]].
    + rewrite Hb in He'; injection He' as ->.
      rewrite full_doc_text_app, length_app; lia.
  - exists before, (p :: mid ++ [q]), after; repeat split; try assumption.
    + rewrite Hdoc; cbn [app]; rewrite <- app_assoc; reflexivity.
    + exists p, (mid ++ [q]); repeat split; [assumption|].
      right; exists mid, q; split; [reflexivity | assumption].
    + assert (Hdoc' : get_document s = (before ++ p :: mid) ++ q :: after)
        by (rewrite Hdoc, <- app_assoc; reflexivity).
      destruct (get_document_offsets s _ _ q Hdoc' (holds_paragraph _ _ Hq))
        as [_ Hqe].
      rewrite Hb in Hqe; injection Hqe as ->.
      rewrite <- !app_assoc; cbn [app].
      rewrite (full_doc_text_app before), length_app; lia.
Qed.

(** X18.  When the scan finds both markers, at the offsets
    [a] and [b], the range from [a] up to [b] is a run of whole
    paragraphs of the document: it starts with the first paragraph that
    holds the start marker and ends with the last paragraph, from there
    on, that holds the end marker.  The new text goes in at offset 1
    first and the range deleted afterwards is
    [a + len(new_text), b + len(new_text)).  The text after the replace
    is the new text, followed by the paragraphs before the range and the
    paragraphs after it, each once and unchanged; what stands inside the
    range is gone.  The length is the length before, minus the length of
    the range, plus the length of the new text. *)
Theorem section_replace_frame :
  forall (s : Store) (content : Builder) (a b : nat),
    old_intelligence (get_document s) = Some (a, b) ->
    let new_text := full_text_of content in
    exists (before section after : Document),
      get_document s = before ++ section ++ after
      /\ Forall (fun el => holds start_marker el = false) before
      /\ (exists p tail,
            section = p :: tail
            /\ holds start_marker p = true
            /\ ((tail = [] /\ end_after_start p = true)
                \/ exists mid q,
                     tail = mid ++ [q] /\ holds end_marker q = true))
      /\ Forall (fun el => holds end_marker el = false) after
      /\ text_of s
         = full_doc_text before ++ full_doc_text section ++ full_doc_text after
      /\ a = 1 + length (full_doc_text before)
      /\ b = a + length (full_doc_text section)
      /\ exists s1 s3 s',
           batchUpdate [InsertText 1 new_text] s = Ok s1
           /\ text_of s1 = new_text ++ text_of s
           /\ text_of s3 = text_of s1
           /\ batchUpdate [DeleteContentRange (a + length new_text)
                                              (b + length new_text)] s3 = Ok s'
           /\ replace_or_prepend_section s content = Ok s'
           /\ (1 <= a /\ a < b /\ b <= S (length s))
           /\ text_of s'
              = new_text ++ firstn (a - 1) (text_of s)
                ++ skipn (b - 1) (text_of s)
           /\ text_of s'
              = new_text ++ full_doc_text before ++ full_doc_text after
           /\ length (text_of s') + (b - a)
              = length (text_of s) + length new_text
           /\ length (text_of s') + length (full_doc_text section)
              = length (text_of s) + length new_text.
Proof.
  intros s content a b Hold new_text.
  destruct (old_intelligence_section s a b Hold)
    as [before [section [after [Hdoc [Hbefore [Hsection [Hafter [Ha Hb]]]]]]]].
  assert (Htext : text_of s = full_doc_text before ++ full_doc_text section
                              ++ full_doc_text after).
  { rewrite <- (full_doc_text_get s), Hdoc, !full_doc_text_app; reflexivity. }
  exists before, section, after; repeat split; try assumption.
  destruct (old_intelligence_range s a b Hold) as [Ha1 [Hab Hb1]].
  destruct (replace_prefix s content) as [s1 [s2 [s3 [H1 [H2 [H3 [T1 T3]]]]]]].
  fold new_text in H1, T1, T3.
  destruct (delete_shifted new_text s s3 a b T3 Ha1 Hab Hb1) as [s' [Hd Td]].
  assert (Hkept : firstn (a - 1) (text_of s) ++ skipn (b - 1) (text_of s)
                  = full_doc_text before ++ full_doc_text after).
  { rewrite Htext; f_equal.
    - replace (a - 1) with (length (full_doc_text before) + 0) by lia.
      rewrite firstn_past_prefix; simpl; apply app_nil_r.
    - rewrite app_assoc.
      replace (b - 1)
        with (length (full_doc_text before ++ full_doc_text section) + 0)
        by (rewrite length_app; lia).
      rewrite skipn_past_prefix; reflexivity. }
  exists s1, s3, s'; repeat split; try assumption; try congruence.
  - unfold replace_or_prepend_section; fold new_text.
    rewrite H1; simpl bind; rewrite H2; simpl bind; rewrite H3; simpl bind.
    rewrite Hold; exact Hd.
  - rewrite Td, !length_app, length_firstn, length_skipn, text_of_length; lia.
  - rewrite Td, Hkept, Htext, !length_app; lia.
Qed.

(** C3.  The replace does not do what the claim says, on two inputs.
    First, a document whose section the writer itself has written: the
    scanned range starts at the title line and ends with the end marker
    line, so of the 656 characters of the old section only 532 are
    deleted; the separator line above the title and the separator line
    and two blank lines below the end marker, 124 characters, stay, and
    writing the same brief again makes the document 124 characters
    longer.  Second, a document in which a summary quotes the end marker:
    the last paragraph that holds the end marker ends the range, and the
    two blocks the reader found below the section are gone after the
    replace. *)
Theorem section_replace_defects :
  (let brief := mkIntelligence (Some (lit "Acme")) (Some (lit "2024-03-01"))
                               (Some (lit "1")) [lit "Uses the server"] []
                               [lit "Send pricing"] []
                               [mkEntry (Some (lit "2024-01-05"))
                                        (Some (lit "Discovery"))
                                        (Some (lit "First call"))] in
   let written := full_text_of (build_content brief (lit "Acme")
                                              (lit "2024-03-01")) in
   exists s1 s2,
     write_intelligence_to_doc (plain_text (lit "Call ID: 7" ++ [newline]))
                               brief (lit "Acme") (lit "2024-03-01") = Ok s1
     /\ text_of s1 = written ++ lit "Call ID: 7" ++ [newline]
     /\ length written = 656
     /\ old_intelligence (get_document s1) = Some (62, 594)
     /\ write_intelligence_to_doc s1 brief (lit "Acme") (lit "2024-03-01")
        = Ok s2
     /\ length (text_of s2) = length (text_of s1) + 124
     /\ text_of s2
        = written ++ separator_line ++ separator_line ++ [newline; newline]
          ++ lit "Call ID: 7" ++ [newline])
  /\ (let s := plain_text
                 (start_marker ++ [newline]
                  ++ lit "old brief" ++ [newline]
                  ++ end_marker ++ [newline]
                  ++ lit "=== CALL SUMMARY: 2024-01-05 - Kickoff ==="
                  ++ [newline] ++ lit "Call ID: 7" ++ [newline]
                  ++ lit "===" ++ [newline]
                  ++ lit "=== CALL SUMMARY: 2024-02-01 - Review ==="
                  ++ [newline] ++ lit "Call ID: 3" ++ [newline]
                  ++ lit "They read the END ACCOUNT INTELLIGENCE line."
                  ++ [newline] ++ lit "===" ++ [newline]) in
      exists s',
        old_intelligence (get_document s) = Some (1, 213)
        /\ map fst (extract_summaries (text_of s))
           = [lit "2024-01-05"; lit "2024-02-01"]
        /\ replace_or_prepend_section
             s (emit (lit "new" ++ [newline]) (mkBuilder [] [] [] 0)) = Ok s'
        /\ text_of s' = lit "new" ++ [newline] ++ lit "===" ++ [newline]
        /\ extract_summaries (text_of s') = []).
Proof.
  split.
  - intros brief written; do 2 eexists.
    split; [vm_compute; reflexivity|].
    repeat split; vm_compute; reflexivity.
  - intros s; eexists.
    split; [vm_compute; reflexivity|].
    split; [vm_compute; reflexivity|].
    split; [vm_compute; reflexivity|].
    split; vm_compute; reflexivity.
Qed.

(** C4, as amended.  When the start marker is found and no end marker
    after it, the section counts as absent: the operation succeeds, puts
    the new text at offset 1 and deletes nothing, so the old text follows
    the new text unchanged. *)
Theorem malformed_markers_prepend :
  forall (s : Store) (content : Builder) (a : nat),
    scan_markers (get_document s) = (Some a, None) ->
    exists s',
      replace_or_prepend_section s content = Ok s'
      /\ text_of s' = full_text_of content ++ text_of s.
Proof.
  intros s content a Hscan.
  destruct (replace_prefix s content) as [s1 [s2 [s3 [H1 [H2 [H3 [T1 T3]]]]]]].
  exists s3; split; [|assumption].
  unfold replace_or_prepend_section, old_intelligence.
  rewrite H1; simpl bind; rewrite H2; simpl bind; rewrite H3; simpl bind.
  rewrite Hscan; reflexivity.
Qed.

(** C4 fails as stated: on a document with the start marker and no end
    marker the operation reports no failure. *)
Lemma malformed_markers_counterexample :
  ~ (forall (s : Store) (content : Builder) (a : nat),
        scan_markers (get_document s) = (Some a, None) ->
        exists e, replace_or_prepend_section s content = Raise e).
Proof.
  intros H.
  destruct (H (plain_text (start_marker ++ [newline]))
              (emit (lit "new" ++ [newline]) (mkBuilder [] [] [] 0)) 1
              eq_refl) as [e He].
  vm_compute in He; discriminate.
Qed.

(** ** Deleting ranges from the highest offset down *)










(** ** Where the markdown pass finds its markers *)


Lemma well_placed_widen (lo lo' hi hi' : nat) (ds : list (marker * nat * nat)) :
  lo' <= lo -> hi <= hi' -> well_placed lo hi ds -> well_placed lo' hi' ds.
Proof.
  intros Hlo Hhi [Hb Hp]; split; [|assumption].
  eapply Forall_impl; [|exact Hb]; simpl; intros d [H1 [H2 H3]].
  repeat split; lia.
Qed.













(** ** The deletion batch *)







Lemma fold_left_invariant {A B : Type} (P : A -> Prop) (f : A -> B -> A)
    (l : list B) :
  (forall a x, P a -> P (f a x)) -> forall a, P a -> P (fold_left f l a).
Proof.
  intros Hf; induction l as [|x l IH]; intros a Ha; simpl;
    [assumption | apply IH, Hf, Ha].
Qed.



(** ** What the markdown pass collects *)





















(** ** The theorems at concrete inputs *)

Lemma idempotent_insert_witness :
  exists s',
    append_summary_to_doc (plain_text (lit "notes" ++ [newline]))
                          (lit "Call ID: 7") (lit "7") = Ok (s', true)
    /\ append_summary_to_doc s' (lit "Call ID: 7") (lit "7") = Ok (s', false)
    /\ occurrences (call_id_key (lit "7")) (text_of s') = 1.
Proof.
  apply (proj2 (proj2 (idempotent_insert
                         (plain_text (lit "notes" ++ [newline]))
                         (lit "Call ID: 7") (lit "7")))).
  - reflexivity.
  - reflexivity.
  - simpl; intros [H | []]; discriminate.
Defined.

(** Three blocks in the order March, January, February, with a line of
    notes between them: the reader returns January, February, March. *)
Lemma read_and_normalize_witness :
  let march := lit "=== CALL SUMMARY: 2024-03-10 - March ===" ++ [newline]
               ++ lit "Call ID: 3" ++ [newline] ++ lit "===" in
  let january := lit "=== CALL SUMMARY: 2024-01-05 - January ===" ++ [newline]
                 ++ lit "Call ID: 1" ++ [newline] ++ lit "===" in
  let february := lit "=== CALL SUMMARY: 2024-02-01 - February ===" ++ [newline]
                  ++ lit "Call ID: 2" ++ [newline] ++ lit "===" in
  let s := plain_text (march ++ [newline] ++ lit "notes" ++ [newline]
                       ++ january ++ [newline] ++ february ++ [newline]) in
  read_summaries_doc s
  = january ++ [newline] ++ february ++ [newline] ++ march
  /\ exists found,
       Forall (block_match (text_of s)) found
       /\ length found = 3
       /\ extract_summaries (text_of s) = map (block_at (text_of s)) found
       /\ exists sorted,
            Permutation sorted (map (block_at (text_of s)) found)
            /\ Sorted date_order sorted
            /\ read_summaries_doc s = join [newline] (map snd sorted).
Proof.
  intros march january february s.
  split; [vm_compute; reflexivity|].
  destruct (read_and_normalize s)
    as [found [Hsound [_ [_ [Hblocks [_ Hsorted]]]]]].
  exists found; split; [exact Hsound | split; [|split; [exact Hblocks|]]].
  - apply (f_equal (@length _)) in Hblocks.
    rewrite length_map in Hblocks; rewrite <- Hblocks.
    vm_compute; reflexivity.
  - destruct Hsorted as [sorted [Hp [Hs [_ Hr]]]].
    + intros ->; vm_compute in Hblocks; discriminate.
    + exists sorted; repeat split; assumption.
Defined.

(** A section as the writer lays it out, between its separator lines,
    above a call block: the range is the paragraphs from the start marker
    through the end marker, and the two separator lines stay. *)
Lemma section_replace_frame_witness :
  let s := plain_text (separator_line ++ start_marker ++ [newline]
                       ++ lit "old brief" ++ [newline]
                       ++ end_marker ++ [newline] ++ separator_line
                       ++ lit "Call ID: 7" ++ [newline]) in
  old_intelligence (get_document s) = Some (62, 118)
  /\ exists s',
       replace_or_prepend_section
         s (emit (lit "new" ++ [newline]) (mkBuilder [] [] [] 0)) = Ok s'
       /\ text_of s'
          = lit "new" ++ [newline] ++ separator_line ++ separator_line
            ++ lit "Call ID: 7" ++ [newline]
       /\ length (text_of s') + 56 = length (text_of s) + 4.
Proof.
  intros s; split; [reflexivity|].
  destruct (section_replace_frame
              s (emit (lit "new" ++ [newline]) (mkBuilder [] [] [] 0))
              62 118 eq_refl)
    as [before [section [after [_ [_ [_ [_ [_ [_ [_ Hrun]]]]]]]]]].
  destruct Hrun as [s1 [s3 [s' [_ [_ [_ [_ [H [_ [T [_ [L _]]]]]]]]]]]].
  exists s'; split; [exact H | split; [exact T | exact L]].
Defined.

Lemma malformed_markers_prepend_witness :
  scan_markers (get_document (plain_text (start_marker ++ [newline])))
  = (Some 1, None)
  /\ exists s',
       replace_or_prepend_section
         (plain_text (start_marker ++ [newline]))
         (emit (lit "new" ++ [newline]) (mkBuilder [] [] [] 0)) = Ok s'
       /\ text_of s' = lit "new" ++ [newline] ++ start_marker ++ [newline].
Proof.
  split; [reflexivity|].
  exact (malformed_markers_prepend
           (plain_text (start_marker ++ [newline]))
           (emit (lit "new" ++ [newline]) (mkBuilder [] [] [] 0)) 1 eq_refl).
Defined.


Lemma dormancy_early_stop_witness :
  exists d,
    fetch_all_call_ids (fun _ => LastPage []) (fun _ _ => lit "NONE")
                       (lit "acme") 30 = Ok d
    /\ windows_scanned (final_scan d) = 6
    /\ call_ids d = [] /\ total_count d = 0.
Proof.
  apply (proj2 (proj2 (dormancy_early_stop
                         (fun _ => LastPage []) (fun _ _ => lit "NONE")
                         (lit "acme") 30))).
  - lia.
  - intros m _; reflexivity.
Defined.

Lemma discovery_result_shape_witness :
  exists d,
    fetch_all_call_ids
      (fun _ => LastPage [mkCall (Some (lit "a")) None (Some (JNum 1)) [];
                          mkCall (Some (lit "b")) None (Some (JNum 2)) []])
      (fun _ _ => lit "0,1") (lit "acme") 1 = Ok d
    /\ call_ids d = [Some (lit "b")]
    /\ Z.of_nat (length (call_ids d)) = 1%Z.
Proof.
  eexists; split; [vm_compute; reflexivity|].
  split; [reflexivity|].
  destruct (discovery_result_shape
              (fun _ => LastPage [mkCall (Some (lit "a")) None (Some (JNum 1)) [];
                                  mkCall (Some (lit "b")) None (Some (JNum 2)) []])
              (fun _ _ => lit "0,1") (lit "acme") 1 _ eq_refl)
    as [sorted [kept [_ [_ [_ [_ [_ [_ [_ [_ H]]]]]]]]]].
  apply H; [lia | simpl; lia].
Defined.

Lemma classifier_fails_open_witness :
  filter_calls_with_llm (fun _ _ => lit "the first one")
                        [mkCall (Some (lit "a")) None None []] (lit "acme")
  = ([mkCall (Some (lit "a")) None None []], 1).
Proof.
  apply (proj1 (classifier_fails_open_on_unparseable
                  (fun _ _ => lit "the first one")
                  [mkCall (Some (lit "a")) None None []] (lit "acme")
                  ltac:(discriminate))).
  - vm_compute; discriminate.
  - vm_compute; discriminate.
  - reflexivity.
Defined.

Lemma synthesizer_parse_contract_witness :
  json_payload (lit "```json {} ```") = lit "{}"
  /\ synthesize_intelligence (fun _ => inr (lit "Expecting value"))
                             (lit "not json")
     = Raise (Exception (parse_failure_prefix ++ lit "Expecting value")).
Proof.
  split.
  - apply (proj1 (proj2 (synthesizer_parse_contract
                           (fun _ => inr (lit "Expecting value"))
                           (lit "```json {} ```")))
                 8 9); reflexivity.
  - apply (proj2 (proj2 (proj2 (synthesizer_parse_contract
                                  (fun _ => inr (lit "Expecting value"))
                                  (lit "not json"))))); reflexivity.
Defined.

Lemma classifier_output_guarded_witness :
  filter_calls_with_llm (fun _ _ => lit "0") [] (lit "acme") = ([], 0)
  /\ select_calls [mkCall (Some (lit "a")) None None []] [5; 0; -1]%Z
     = Some (interpret_response [mkCall (Some (lit "a")) None None []]
                                (lit "5,0,-1")).
Proof.
  split.
  - exact (proj1 (proj2 (classifier_output_guarded
                           (fun _ _ => lit "0") [] (lit "acme")))).
  - apply (proj2 (proj2 (proj2 (classifier_output_guarded
                                  (fun _ _ => lit "0")
                                  [mkCall (Some (lit "a")) None None []]
                                  (lit "acme")))));
      reflexivity.
Defined.

(** * Further properties of the code *)

(** ** Substrings *)

Lemma find_none_tail (p : str) (c : ascii) (s : str) :
  find p (c :: s) = None -> find p s = None.
Proof.
  simpl; destruct (startswith p (c :: s)); [discriminate|].
  destruct (find p s); [discriminate | reflexivity].
Qed.

(** [p in s] says that [s] is some text, then [p], then some text. *)
Lemma contains_iff (p s : str) :
  contains p s = true <-> exists a b, s = a ++ p ++ b.
Proof.
  unfold contains; split.
  - induction s as [|c s IH]; simpl.
    + destruct (startswith p []) eqn:E; [|discriminate].
      intros _; apply startswith_spec in E as [t Ht]; exists [], t; exact Ht.
    + destruct (startswith p (c :: s)) eqn:E.
      * intros _; apply startswith_spec in E as [t Ht]; exists [], t; exact Ht.
      * destruct (find p s) as [i|]; [|discriminate].
        intros _; destruct (IH eq_refl) as [a [b ->]].
        exists (c :: a), b; reflexivity.
  - intros [a [b ->]]; induction a as [|c a IH].
    + simpl app.
      assert (H : find p (p ++ b) = Some 0)
        by (destruct (p ++ b) eqn:E; simpl; rewrite <- ?E, startswith_app_self;
            reflexivity).
      rewrite H; reflexivity.
    + simpl; destruct (startswith p (c :: a ++ p ++ b)); [reflexivity|].
      destruct (find p (a ++ p ++ b)); [reflexivity | discriminate].
Qed.

Lemma contains_app_r (p a s : str) :
  contains p s = true -> contains p (a ++ s) = true.
Proof.
  intros H; apply contains_iff in H as [x [y ->]].
  apply contains_iff; exists (a ++ x), y; rewrite app_assoc; reflexivity.
Qed.

Lemma contains_app_l (p s b : str) :
  contains p s = true -> contains p (s ++ b) = true.
Proof.
  intros H; apply contains_iff in H as [x [y ->]].
  apply contains_iff; exists x, (y ++ b); rewrite <- !app_assoc; reflexivity.
Qed.

Lemma filter_id (A : Type) (f : A -> bool) (l : list A) :
  Forall (fun x => f x = true) l -> filter f l = l.
Proof.
  induction 1 as [|x l Hx Hl IH]; simpl; [reflexivity|].
  rewrite Hx, IH; reflexivity.
Qed.

Lemma filter_all (A : Type) (f : A -> bool) (l : list A) :
  Forall (fun x => f x = true) (filter f l).
Proof. apply Forall_forall; intros x Hx; apply filter_In in Hx; tauto. Qed.

(** Replacing one character by nothing drops its occurrences. *)
Lemma replace_char_filter (c : ascii) (s : str) :
  replace [c] [] s = filter (fun x => negb (Ascii.eqb c x)) s.
Proof.
  unfold replace; induction s as [|x s IH]; simpl; [reflexivity|].
  destruct (Ascii.eqb c x); simpl; rewrite IH; reflexivity.
Qed.

(** ** Account name normalizer *)

Lemma lower_char_idem (c : ascii) : lower_char (lower_char c) = lower_char c.
Proof.
  destruct c as [[] [] [] [] [] [] [] []]; vm_compute; reflexivity.
Qed.

Lemma lower_char_keeps (c x : ascii) :
  In x [" "%char; "-"%char; "@"%char] -> lower_char c = x -> c = x.
Proof.
  intros [<- | [<- | [<- | []]]];
    destruct c as [[] [] [] [] [] [] [] []]; vm_compute; congruence.
Qed.

Lemma lower_idem (s : str) : lower (lower s) = lower s.
Proof.
  unfold lower; rewrite map_map; apply map_ext; intros c; apply lower_char_idem.
Qed.

Lemma lower_filter (f : ascii -> bool) (s : str) :
  lower (filter f (lower s)) = filter f (lower s).
Proof.
  unfold lower; induction s as [|c s IH]; simpl; [reflexivity|].
  destruct (f (lower_char c)); simpl; [rewrite lower_char_idem|]; rewrite IH;
    reflexivity.
Qed.

Lemma normalize_as_filter (name : str) :
  normalize_company_name name
  = filter (fun x => negb (Ascii.eqb "-"%char x))
           (filter (fun x => negb (Ascii.eqb " "%char x)) (lower name)).
Proof.
  unfold normalize_company_name.
  change (lit "-") with ["-"%char]; change (lit " ") with [" "%char].
  rewrite !replace_char_filter; reflexivity.
Qed.

Lemma normalize_normal_form (name : str) :
  ~ In " "%char (normalize_company_name name)
  /\ ~ In "-"%char (normalize_company_name name)
  /\ lower (normalize_company_name name) = normalize_company_name name
  /\ normalize_company_name (normalize_company_name name)
     = normalize_company_name name.
Proof.
  rewrite normalize_as_filter.
  set (keep1 := fun x => negb (Ascii.eqb " "%char x)).
  set (keep2 := fun x => negb (Ascii.eqb "-"%char x)).
  assert (H1 : ~ In " "%char (filter keep2 (filter keep1 (lower name)))).
  { intros H; apply filter_In in H as [H _]; apply filter_In in H as [_ H].
    discriminate. }
  assert (H2 : ~ In "-"%char (filter keep2 (filter keep1 (lower name)))).
  { intros H; apply filter_In in H as [_ H]; discriminate. }
  assert (H3 : lower (filter keep2 (filter keep1 (lower name)))
               = filter keep2 (filter keep1 (lower name))).
  { rewrite <- (lower_filter keep1 name) at 1; rewrite lower_filter.
    rewrite lower_filter; reflexivity. }
  repeat split; try assumption.
  rewrite normalize_as_filter; fold keep1 keep2; rewrite H3.
  rewrite (filter_id _ keep1 (filter keep2 (filter keep1 (lower name)))).
  - apply filter_id, filter_all.
  - apply Forall_forall; intros x Hx; apply filter_In in Hx as [Hx _].
    apply filter_In in Hx; tauto.
Qed.

(** X1.  The normal form of a name holds no space and no hyphen, is in
    lower case, and is its own normal form. *)
Theorem normalize_company_name_normal :
  forall (name : str),
    ~ In " "%char (normalize_company_name name)
    /\ ~ In "-"%char (normalize_company_name name)
    /\ lower (normalize_company_name name) = normalize_company_name name
    /\ normalize_company_name (normalize_company_name name)
       = normalize_company_name name.
Proof. exact normalize_normal_form. Qed.

Lemma split_pieces_clean (sep : ascii) (s : str) :
  Forall (fun w => ~ In sep w) (split sep s).
Proof.
  induction s as [|c s IH]; simpl; [repeat constructor; intros []|].
  destruct (Ascii.eqb c sep) eqn:E; [constructor; [intros [] | exact IH]|].
  destruct (split sep s) as [|w ws]; [repeat constructor|].
  - intros [H | []]; subst; rewrite Ascii.eqb_refl in E; discriminate.
  - inversion IH; subst; constructor; [|assumption].
    intros [H | H]; [subst; rewrite Ascii.eqb_refl in E; discriminate | auto].
Qed.

Lemma split_without_sep (sep : ascii) (s : str) :
  ~ In sep s -> split sep s = [s].
Proof.
  induction s as [|c s IH]; simpl; intros H; [reflexivity|].
  destruct (Ascii.eqb c sep) eqn:E.
  - apply Ascii.eqb_eq in E; subst; exfalso; apply H; left; reflexivity.
  - rewrite IH; [reflexivity | intros Hin; apply H; right; exact Hin].
Qed.

Lemma split_at_first (sep : ascii) (a b : str) :
  ~ In sep a -> split sep (a ++ sep :: b) = a :: split sep b.
Proof.
  induction a as [|c a IH]; simpl; intros H.
  - rewrite Ascii.eqb_refl; reflexivity.
  - destruct (Ascii.eqb c sep) eqn:E.
    + apply Ascii.eqb_eq in E; subst; exfalso; apply H; left; reflexivity.
    + rewrite IH; [reflexivity | intros Hin; apply H; right; exact Hin].
Qed.

Lemma contains_char (c : ascii) (s : str) :
  contains [c] s = true -> In c s.
Proof.
  intros H; apply contains_iff in H as [a [b ->]].
  apply in_or_app; right; left; reflexivity.
Qed.

(** With the separator in the text there is a second piece. *)
Lemma split_second_piece (sep : ascii) (s : str) :
  In sep s -> exists w0 w1 ws, split sep s = w0 :: w1 :: ws.
Proof.
  induction s as [|c s IH]; simpl; intros H; [contradiction|].
  destruct (Ascii.eqb c sep) eqn:E.
  - destruct (split sep s) as [|w ws] eqn:Hs.
    + destruct s; simpl in Hs; [discriminate|].
      destruct (Ascii.eqb a sep); [discriminate|].
      destruct (split sep s); discriminate.
    + exists [], w, ws; reflexivity.
  - destruct H as [H | H];
      [subst; rewrite Ascii.eqb_refl in E; discriminate|].
    destruct (IH H) as [w0 [w1 [ws ->]]].
    exists (c :: w0), w1, ws; reflexivity.
Qed.

Lemma strip_tld_prefix (tlds : list str) (domain : str) :
  exists k, strip_tld tlds domain = firstn k domain.
Proof.
  induction tlds as [|tld rest IH]; simpl.
  - exists (length domain); rewrite firstn_all; reflexivity.
  - destruct (endswith tld domain); [|exact IH].
    rewrite slice_to_firstn; eexists; reflexivity.
Qed.

Lemma normalize_keeps_out (x : ascii) (s : str) :
  In x [" "%char; "-"%char; "@"%char] -> ~ In x s ->
  ~ In x (normalize_company_name s).
Proof.
  intros Hx Hs H; rewrite normalize_as_filter in H.
  apply filter_In in H as [H _]; apply filter_In in H as [H _].
  unfold lower in H; apply in_map_iff in H as [c [Hc Hin]].
  apply (lower_char_keeps c x Hx) in Hc; subst; contradiction.
Qed.

(** X2.  The company of an address is always defined (the index [1] of
    the split never fails), is empty when the address holds no [@], and
    holds no [@], no space and no hyphen. *)
Theorem extract_company_from_email_clean :
  forall (email : str),
    exists company,
      extract_company_from_email email = Some company
      /\ (contains (lit "@") email = false -> company = [])
      /\ ~ In "@"%char company
      /\ ~ In " "%char company /\ ~ In "-"%char company.
Proof.
  intros email; unfold extract_company_from_email.
  destruct (contains (lit "@") email) eqn:Hc; cbn [negb].
  - change (lit "@") with ["@"%char] in Hc; apply contains_char in Hc.
    destruct (split_second_piece "@"%char email Hc) as [w0 [w1 [ws Hs]]].
    rewrite Hs; eexists; split; [reflexivity|].
    split; [discriminate|].
    destruct (normalize_normal_form (strip_tld common_tlds w1))
      as [H1 [H2 _]].
    repeat split; try assumption.
    apply normalize_keeps_out; [right; right; left; reflexivity|].
    destruct (strip_tld_prefix common_tlds w1) as [k ->].
    intros Hin; apply in_firstn in Hin.
    pose proof (split_pieces_clean "@"%char email) as Hclean.
    rewrite Hs in Hclean; inversion Hclean as [|? ? _ Hrest]; subst.
    inversion Hrest; subst; contradiction.
  - exists []; repeat split; auto.
Qed.

Lemma endswith_app (suffix a : str) : endswith suffix (a ++ suffix) = true.
Proof. unfold endswith; rewrite rev_app_distr; apply startswith_app_self. Qed.


Lemma endswith_after (suffix tld name : str) :
  endswith suffix (name ++ tld) = startswith (rev suffix) (rev tld ++ rev name).
Proof. unfold endswith; rewrite rev_app_distr; reflexivity. Qed.

Lemma slice_off_suffix (name t : str) :
  t <> [] -> slice_to (name ++ t) (- Z.of_nat (length t)) = name.
Proof.
  intros Ht; rewrite slice_to_firstn; unfold clamp_index; rewrite length_app.
  assert (Hlen : 0 < length t) by (destruct t; [contradiction | simpl; lia]).
  replace (- Z.of_nat (length t) <? 0)%Z with true
    by (symmetry; apply Z.ltb_lt; lia).
  replace (Z.to_nat (Z.max 0 (Z.of_nat (length name + length t)
                              + - Z.of_nat (length t))))
    with (length name + 0) by lia.
  rewrite firstn_app_2; simpl; apply app_nil_r.
Qed.

Lemma strip_known_tld (name tld : str) :
  In tld common_tlds -> strip_tld common_tlds (name ++ tld) = name.
Proof.
  unfold common_tlds; intros H.
  repeat (destruct H as [<- | H]); try contradiction; unfold strip_tld;
    repeat match goal with
           | |- context [endswith ?t (name ++ ?u)] =>
               first
                 [ replace (endswith t (name ++ u)) with false
                     by (unfold endswith; rewrite rev_app_distr; reflexivity)
                 | replace (endswith t (name ++ u)) with true
                     by (symmetry; apply endswith_app) ]
           end;
    cbv iota; apply slice_off_suffix; discriminate.
Qed.

(** X3.  For an address [local@name.tld] whose [name] is in normal form
    and free of [@] and whose suffix is one of the known ones, the
    company is [name]. *)
Theorem extract_company_from_email_round_trip :
  forall (local_part name tld : str),
    ~ In "@"%char local_part -> ~ In "@"%char name ->
    normalize_company_name name = name ->
    In tld common_tlds ->
    extract_company_from_email (local_part ++ "@"%char :: name ++ tld)
    = Some name.
Proof.
  intros local_part name tld Hl Hn Hnorm Htld.
  assert (Htld_clean : ~ In "@"%char tld).
  { unfold common_tlds in Htld.
    repeat (destruct Htld as [<- | Htld]); try contradiction;
      vm_compute; intuition discriminate. }
  unfold extract_company_from_email.
  replace (contains (lit "@") (local_part ++ "@"%char :: name ++ tld))
    with true.
  - cbn [negb]; rewrite split_at_first by assumption.
    rewrite split_without_sep.
    + rewrite strip_known_tld by assumption; rewrite Hnorm; reflexivity.
    + intros Hin; apply in_app_or in Hin as [Hin | Hin]; contradiction.
  - symmetry; apply contains_iff.
    exists local_part, (name ++ tld); reflexivity.
Qed.

Lemma extract_company_from_email_round_trip_witness :
  extract_company_from_email (lit "person@companycorp.io")
  = Some (lit "companycorp").
Proof.
  apply (extract_company_from_email_round_trip
           (lit "person") (lit "companycorp") (lit ".io")).
  - vm_compute; intuition discriminate.
  - vm_compute; intuition discriminate.
  - reflexivity.
  - vm_compute; auto.
Defined.

(** ** Document address *)

Lemma startswith_other_head (x c : ascii) (p s : str) :
  c <> x -> startswith (x :: p) (c :: s) = false.
Proof.
  intros H; simpl; destruct (Ascii.eqb x c) eqn:E; [|reflexivity].
  apply Ascii.eqb_eq in E; congruence.
Qed.

Lemma split_str_from_nonempty (sep s : str) :
  forall skip, split_str_from sep s skip <> [].
Proof.
  induction s as [|c s IH]; intros skip; simpl; [discriminate|].
  destruct skip as [|k]; [|apply IH].
  destruct (startswith sep (c :: s)); [discriminate|].
  destruct (split_str_from sep s 0); discriminate.
Qed.

Lemma split_str_no_head (x : ascii) (p a b : str) :
  ~ In x a ->
  split_str_from (x :: p) (a ++ b) 0
  = match split_str_from (x :: p) b 0 with
    | w :: ws => (a ++ w) :: ws
    | [] => [a]
    end.
Proof.
  induction a as [|c a IH]; intros H.
  - simpl app; destruct (split_str_from (x :: p) b 0) eqn:E; [|reflexivity].
    exfalso; exact (split_str_from_nonempty _ _ _ E).
  - change ((c :: a) ++ b) with (c :: a ++ b).
    cbn [split_str_from]; rewrite startswith_other_head
      by (intros ->; apply H; left; reflexivity).
    rewrite IH by (intros Hin; apply H; right; exact Hin).
    destruct (split_str_from (x :: p) b 0); reflexivity.
Qed.

(** X4.  The address built for a document id gives the id back when it
    is parsed the way the document activities parse it, for every id
    without a slash. *)
Theorem doc_id_round_trip :
  forall (doc_id : str),
    ~ In "/"%char doc_id -> doc_id_of (doc_url_of doc_id) = Some doc_id.
Proof.
  intros doc_id H; unfold doc_id_of, doc_url_of, split_str.
  assert (H1 : split_str_from (lit "/d/") (doc_id ++ lit "/edit") 0
               = [doc_id ++ lit "/edit"]).
  { change (lit "/d/") with ("/"%char :: lit "d/").
    rewrite split_str_no_head by assumption; reflexivity. }
  assert (H2 : split_str_from (lit "/") (doc_id ++ lit "/edit") 0
               = [doc_id; lit "edit"]).
  { change (lit "/") with ("/"%char :: []).
    rewrite split_str_no_head by assumption.
    simpl; rewrite app_nil_r; reflexivity. }
  remember (doc_id ++ lit "/edit") as rest eqn:Hrest.
  assert (H0 : split_str_from (lit "/d/")
                 (lit "https://docs.google.com/document/d/" ++ rest) 0
               = lit "https://docs.google.com/document"
                 :: split_str_from (lit "/d/") rest 0)
    by reflexivity.
  rewrite H0, H1, H2; reflexivity.
Qed.

Lemma doc_id_round_trip_witness :
  doc_id_of (doc_url_of (lit "1AbC_x-9")) = Some (lit "1AbC_x-9").
Proof.
  apply (doc_id_round_trip (lit "1AbC_x-9")).
  vm_compute; intuition discriminate.
Defined.

(** ** The summary block and the idempotency key *)

Lemma formatted_summary_shape (call_date_str : str) (title : option str)
    (call_id : str) (ps : list Party) (duration : option Z) (summary : str) :
  exists header rest,
    formatted_summary call_date_str title call_id ps duration summary
    = header ++ call_id_key call_id ++ rest.
Proof.
  exists (lit "=== CALL SUMMARY: " ++ call_date_str ++ lit " - "
          ++ or_default title (lit "Untitled") ++ lit " ===" ++ [newline]).
  eexists; unfold formatted_summary, call_id_key.
  rewrite <- !app_assoc; reflexivity.
Qed.

(** X5.  Whatever the call, the block the summarizer formats holds the
    key [Call ID: <id>] that the insert looks for. *)
Theorem formatted_summary_has_key :
  forall (call_date_str : str) (title : option str) (call_id : str)
         (ps : list Party) (duration : option Z) (summary : str),
    contains (call_id_key call_id)
             (formatted_summary call_date_str title call_id ps duration summary)
    = true.
Proof.
  intros; apply contains_iff; apply formatted_summary_shape.
Qed.

Lemma append_result (s : Store) (summary call_id : str) :
  exists s' b,
    append_summary_to_doc s summary call_id = Ok (s', b)
    /\ exists t, text_of s' = t ++ text_of s
                 /\ (b = true -> t = summary ++ [newline])
                 /\ (b = false -> s' = s).
Proof.
  destruct (contains (call_id_key call_id) (text_of s)) eqn:E.
  - exists s, false; split; [apply append_when_present; exact E|].
    exists []; repeat split; [discriminate].
  - destruct (append_when_absent s summary call_id E) as [s' [H T]].
    exists s', true; split; [exact H|].
    exists (summary ++ [newline]); repeat split; [exact T | discriminate].
Qed.

(** X6.  Inserting a block formatted by the summarizer and inserting it
    again, on any document: the second insert changes nothing and
    returns [False]. *)
Theorem formatted_summary_retry_is_noop :
  forall (s : Store) (call_date_str : str) (title : option str)
         (call_id : str) (ps : list Party) (duration : option Z)
         (summary : str),
    let block :=
      formatted_summary call_date_str title call_id ps duration summary in
    exists s1 b,
      append_summary_to_doc s block call_id = Ok (s1, b)
      /\ append_summary_to_doc s1 block call_id = Ok (s1, false).
Proof.
  intros s call_date_str title call_id ps duration summary block.
  destruct (append_result s block call_id) as [s1 [b [H [t [T [Ht Hf]]]]]].
  exists s1, b; split; [exact H|].
  apply append_when_present.
  destruct b.
  - rewrite T, (Ht eq_refl), <- app_assoc.
    apply contains_app_l, contains_iff, formatted_summary_shape.
  - rewrite (Hf eq_refl) in *.
    unfold append_summary_to_doc in H; rewrite full_doc_text_get in H.
    destruct (contains (call_id_key call_id) (text_of s)); [reflexivity|].
    simpl in H; discriminate.
Qed.

(** X7.  An insert never takes text away: the text before it is the end
    of the text after it, so a key that is in the document stays there
    and every later insert for that call changes nothing. *)
Theorem append_keeps_recorded_calls :
  forall (s s' : Store) (summary call_id : str) (b : bool),
    append_summary_to_doc s summary call_id = Ok (s', b) ->
    (exists t, text_of s' = t ++ text_of s)
    /\ (forall recorded,
           contains (call_id_key recorded) (text_of s) = true ->
           contains (call_id_key recorded) (text_of s') = true
           /\ forall summary', append_summary_to_doc s' summary' recorded
                               = Ok (s', false)).
Proof.
  intros s s' summary call_id b H.
  destruct (append_result s summary call_id) as [s1 [b1 [H1 [t [T _]]]]].
  rewrite H in H1; injection H1 as -> ->.
  split; [exists t; exact T|].
  intros recorded Hr.
  assert (Hc : contains (call_id_key recorded) (text_of s1) = true)
    by (rewrite T; apply contains_app_r; exact Hr).
  split; [exact Hc | intros summary'; apply append_when_present; exact Hc].
Qed.

Lemma append_keeps_recorded_calls_witness :
  contains (call_id_key (lit "12"))
           (text_of (plain_text (lit "Call ID: 7" ++ [newline]
                                 ++ lit "Call ID: 12" ++ [newline])))
  = true.
Proof.
  apply (proj2 (append_keeps_recorded_calls
                  (plain_text (lit "Call ID: 12" ++ [newline]))
                  (plain_text (lit "Call ID: 7" ++ [newline]
                               ++ lit "Call ID: 12" ++ [newline]))
                  (lit "Call ID: 7") (lit "7") true eq_refl)
               (lit "12") eq_refl).
Defined.

(** ** A well-formed block and the block pattern *)

Lemma lazy_until_equals (xs rest : str) :
  ~ In "="%char xs ->
  lazy_until any_char triple_equals (xs ++ triple_equals ++ rest)
  = Some (length xs).
Proof.
  induction xs as [|x xs IH]; intros H.
  - simpl app.
    assert (E : startswith triple_equals (triple_equals ++ rest) = true)
      by apply startswith_app_self.
    destruct (triple_equals ++ rest) eqn:Hr; simpl; rewrite <- ?Hr, ?E;
      [discriminate | reflexivity].
  - change ((x :: xs) ++ triple_equals ++ rest)
      with (x :: xs ++ triple_equals ++ rest).
    cbn [lazy_until].
    change triple_equals with ("="%char :: lit "==") at 1.
    rewrite startswith_other_head
      by (intros ->; apply H; left; reflexivity).
    unfold any_char at 1; rewrite IH by (intros Hin; apply H; right; exact Hin).
    reflexivity.
Qed.

Lemma is_date_length (d : str) : is_date d = true -> length d = 10.
Proof.
  do 11 (destruct d as [|? d]; try discriminate); reflexivity.
Qed.

Lemma match_summary_at_block :
  forall (date_str : str) (c : ascii) (title_rest body rest : str),
    is_date date_str = true ->
    ~ In "="%char title_rest -> ~ In "="%char body ->
    match_summary_at
      (summary_prefix ++ date_str ++ lit " - " ++ (c :: title_rest)
       ++ triple_equals ++ body ++ triple_equals ++ rest)
    = Some (length (summary_prefix ++ date_str ++ lit " - "
                    ++ (c :: title_rest) ++ triple_equals ++ body
                    ++ triple_equals),
            date_str).
Proof.
  intros date_str c title_rest body rest Hd Ht Hb.
  pose proof (is_date_length _ Hd) as Hlen.
  assert (L : length (summary_prefix ++ date_str ++ lit " - "
                      ++ (c :: title_rest) ++ triple_equals ++ body
                      ++ triple_equals)
              = 18 + 10 + 3 + 1 + length title_rest + 3 + length body + 3).
  { rewrite !length_app, Hlen.
    change (length summary_prefix) with 18; change (length (lit " - ")) with 3.
    change (length triple_equals) with 3; cbn [length]; lia. }
  rewrite L; clear L Hlen.
  do 11 (destruct date_str as [|? date_str]; try discriminate).
  unfold match_summary_at.
  rewrite startswith_app_self.
  match goal with
  | |- context [is_date (firstn 10 (skipn 18 ?t))] =>
      change (is_date (firstn 10 (skipn 18 t)))
        with (is_date [a; a0; a1; a2; a3; a4; a5; a6; a7; a8]);
      change (startswith (lit " - ") (skipn 10 (skipn 18 t))) with true;
      change (skipn 13 (skipn 18 t))
        with (c :: title_rest ++ triple_equals ++ body ++ triple_equals ++ rest);
      change (firstn 10 (skipn 18 t))
        with [a; a0; a1; a2; a3; a4; a5; a6; a7; a8]
  end.
  rewrite Hd; cbn [andb].
  rewrite lazy_until_equals by assumption.
  replace (skipn (length title_rest + 3)
                 (title_rest ++ triple_equals ++ body ++ triple_equals ++ rest))
    with (body ++ triple_equals ++ rest).
  - rewrite lazy_until_equals by assumption; reflexivity.
  - symmetry; rewrite (app_assoc title_rest triple_equals).
    replace (length title_rest + 3)
      with (length (title_rest ++ triple_equals) + 0)
      by (rewrite length_app; change (length triple_equals) with 3; lia).
    rewrite skipn_past_prefix; reflexivity.
Qed.

(** X8.  A block whose title part and body hold no [=] is matched by
    the block pattern as a whole: from its start delimiter through its
    end delimiter, with the date of its header. *)
Theorem block_pattern_matches_block :
  forall (date_str : str) (c : ascii) (title_rest body rest : str),
    is_date date_str = true ->
    ~ In "="%char title_rest -> ~ In "="%char body ->
    match_summary_at
      (summary_prefix ++ date_str ++ lit " - " ++ (c :: title_rest)
       ++ triple_equals ++ body ++ triple_equals ++ rest)
    = Some (length (summary_prefix ++ date_str ++ lit " - "
                    ++ (c :: title_rest) ++ triple_equals ++ body
                    ++ triple_equals),
            date_str).
Proof. exact match_summary_at_block. Qed.

Lemma block_pattern_matches_block_witness :
  match_summary_at
    (summary_prefix ++ lit "2024-01-05" ++ lit " - " ++ lit "Kickoff "
     ++ triple_equals ++ lit "Call ID: 7" ++ triple_equals ++ [newline])
  = Some (55, lit "2024-01-05").
Proof.
  exact (block_pattern_matches_block
           (lit "2024-01-05") "K"%char (lit "ickoff ") (lit "Call ID: 7")
           [newline] eq_refl
           ltac:(vm_compute; intuition discriminate)
           ltac:(vm_compute; intuition discriminate)).
Defined.

(** ** From the summarizer to the reader *)

Lemma uint_no_equals (d : Decimal.uint) :
  ~ In "="%char (list_ascii_of_string (NilEmpty.string_of_uint d)).
Proof.
  induction d; simpl; intros H;
    try (destruct H as [H | H]; [discriminate | auto]); auto.
Qed.

Lemma decimal_Z_no_equals (z : Z) : ~ In "="%char (decimal_Z z).
Proof.
  unfold decimal_Z, decimal, lit; destruct (z <? 0)%Z.
  - intros [H | H]; [discriminate | exact (uint_no_equals _ H)].
  - apply uint_no_equals.
Qed.

Lemma contains_length (p s : str) :
  contains p s = true -> length p <= length s.
Proof.
  intros H; apply contains_iff in H as [a [b ->]].
  rewrite !length_app; lia.
Qed.

Lemma finditer_from_skip (B : Type) (m : str -> option (nat * B)) (a b : str) :
  forall pos,
    finditer_from m (a ++ b) pos (length a) = finditer_from m b (pos + length a) 0.
Proof.
  induction a as [|c a IH]; intros pos; simpl.
  - rewrite Nat.add_0_r; reflexivity.
  - rewrite IH; f_equal; lia.
Qed.

(** A text that is one match followed by text without a match. *)
Lemma finditer_single (B : Type) (m : str -> option (nat * B))
    (blk rest : str) (x : B) :
  blk <> [] ->
  m (blk ++ rest) = Some (length blk, x) ->
  (forall pos, finditer_from m rest pos 0 = []) ->
  finditer m (blk ++ rest) = [(0, length blk, x)].
Proof.
  intros Hne Hm Hrest; destruct blk as [|c blk]; [contradiction|].
  unfold finditer; simpl app in *; cbn [finditer_from]; rewrite Hm.
  replace (length (c :: blk) - 1) with (length blk) by (simpl; lia).
  rewrite finditer_from_skip, Hrest; reflexivity.
Qed.

Lemma not_in_app (x : ascii) (a b : str) :
  ~ In x a -> ~ In x b -> ~ In x (a ++ b).
Proof. intros Ha Hb H; apply in_app_or in H as [H | H]; contradiction. Qed.

(** The block of the summarizer, cut the way the pattern reads it. *)
Lemma formatted_summary_cut (call_date_str : str) (title : option str)
    (call_id : str) (ps : list Party) (duration : option Z) (summary : str) :
  ~ In "="%char (or_default title (lit "Untitled")) ->
  ~ In "="%char call_id -> ~ In "="%char (participants_str ps) ->
  ~ In "="%char summary ->
  exists c title_rest body,
    formatted_summary call_date_str title call_id ps duration summary
    = (summary_prefix ++ call_date_str ++ lit " - " ++ (c :: title_rest)
       ++ triple_equals ++ body ++ triple_equals) ++ [newline]
    /\ ~ In "="%char title_rest /\ ~ In "="%char body.
Proof.
  intros Ht Hi Hp Hs.
  set (t := or_default title (lit "Untitled")) in *.
  assert (Hc : exists c title_rest,
             t ++ [" "%char] = c :: title_rest /\ ~ In "="%char title_rest).
  { destruct t as [|x t'].
    - exists " "%char, []; split; [reflexivity | intros []].
    - exists x, (t' ++ [" "%char]); split; [reflexivity|].
      apply not_in_app; [intros H; apply Ht; right; exact H|].
      intros [H | []]; discriminate. }
  destruct Hc as [c [title_rest [Hct Hrest]]].
  exists c, title_rest,
    ([newline] ++ lit "Call ID: " ++ call_id ++ [newline]
     ++ lit "Participants: " ++ participants_str ps ++ [newline]
     ++ lit "Duration: "
     ++ decimal_Z (match duration with Some d => d | None => 0%Z end / 60)
     ++ lit " minutes" ++ [newline] ++ [newline]
     ++ summary ++ [newline] ++ [newline]).
  split; [|split; [exact Hrest|]].
  - rewrite <- Hct; unfold formatted_summary; fold t.
    change (lit " ===") with ([" "%char] ++ triple_equals).
    change (lit "===") with triple_equals.
    change (lit "=== CALL SUMMARY: ") with summary_prefix.
    rewrite <- !app_assoc; reflexivity.
  - repeat (apply not_in_app;
            try assumption;
            try apply decimal_Z_no_equals;
            try (vm_compute; intuition discriminate)).
Qed.

Lemma no_block_in_newlines (pos : nat) :
  finditer_from match_summary_at [newline; newline; newline] pos 0 = [].
Proof. reflexivity. Qed.

(** X9.  A block formatted by the summarizer with a date of the form
    YYYY-MM-DD and no [=] in its title, id, participants and summary,
    inserted into an empty document, is read back by the reader as a
    whole, without its last newline, under the date of its header. *)
Theorem summarizer_block_read_back :
  forall (call_date_str : str) (title : option str) (call_id : str)
         (ps : list Party) (duration : option Z) (summary : str),
    is_date call_date_str = true ->
    ~ In "="%char (or_default title (lit "Untitled")) ->
    ~ In "="%char call_id -> ~ In "="%char (participants_str ps) ->
    ~ In "="%char summary ->
    let block :=
      formatted_summary call_date_str title call_id ps duration summary in
    exists s1,
      append_summary_to_doc (plain_text [newline]) block call_id = Ok (s1, true)
      /\ extract_summaries (text_of s1) = [(call_date_str, removelast block)]
      /\ read_summaries_doc s1 = removelast block.
Proof.
  intros call_date_str title call_id ps duration summary Hd Ht Hi Hp Hs block.
  destruct (formatted_summary_cut call_date_str title call_id ps duration
              summary Ht Hi Hp Hs) as [c [title_rest [body [Hcut [H1 H2]]]]].
  fold block in Hcut.
  set (blk := summary_prefix ++ call_date_str ++ lit " - " ++ (c :: title_rest)
              ++ triple_equals ++ body ++ triple_equals) in *.
  assert (Habsent : contains (call_id_key call_id)
                             (text_of (plain_text [newline])) = false).
  { destruct (contains (call_id_key call_id) (text_of (plain_text [newline])))
      eqn:E; [|reflexivity].
    apply contains_length in E; unfold call_id_key in E.
    rewrite length_app in E; simpl in E; lia. }
  destruct (append_when_absent (plain_text [newline]) block call_id Habsent)
    as [s1 [Happ Htext]].
  assert (HT : text_of s1 = blk ++ [newline; newline; newline]).
  { rewrite Htext, Hcut, <- !app_assoc; reflexivity. }
  assert (Hm : match_summary_at (blk ++ [newline; newline; newline])
               = Some (length blk, call_date_str)).
  { unfold blk; rewrite <- !app_assoc.
    rewrite (match_summary_at_block call_date_str c title_rest body
               [newline; newline; newline] Hd H1 H2).
    reflexivity. }
  assert (Hblocks : extract_summaries (text_of s1) = [(call_date_str, blk)]).
  { unfold extract_summaries; rewrite HT.
    rewrite (finditer_single _ match_summary_at blk
               [newline; newline; newline] call_date_str);
      [|unfold blk; destruct call_date_str; discriminate
       |exact Hm | exact no_block_in_newlines].
    cbn [map]; unfold span; rewrite Nat.sub_0_r; cbn [skipn].
    rewrite firstn_app, Nat.sub_diag, firstn_all; cbn [firstn].
    rewrite app_nil_r; reflexivity. }
  assert (Hlast : removelast block = blk)
    by (rewrite Hcut; apply removelast_last).
  exists s1; rewrite Hlast; repeat split; try assumption.
  unfold read_summaries_doc; rewrite full_doc_text_get, Hblocks; reflexivity.
Qed.

Lemma summarizer_block_read_back_witness :
  exists s1,
    append_summary_to_doc
      (plain_text [newline])
      (formatted_summary (lit "2024-01-05") (Some (lit "Kickoff")) (lit "7")
                         [] (Some 3600%Z) (lit "Pricing was discussed."))
      (lit "7") = Ok (s1, true)
    /\ read_summaries_doc s1
       = removelast
           (formatted_summary (lit "2024-01-05") (Some (lit "Kickoff"))
                              (lit "7") [] (Some 3600%Z)
                              (lit "Pricing was discussed.")).
Proof.
  destruct (summarizer_block_read_back
              (lit "2024-01-05") (Some (lit "Kickoff")) (lit "7") []
              (Some 3600%Z) (lit "Pricing was discussed.") eq_refl
              ltac:(vm_compute; intuition discriminate)
              ltac:(vm_compute; intuition discriminate)
              ltac:(vm_compute; intuition discriminate)
              ltac:(vm_compute; intuition discriminate))
    as [s1 [H [_ R]]].
  exists s1; split; [exact H | exact R].
Defined.

(** ** Offsets of the section text *)

Lemma bookkept_emit (t : str) (b : Builder) : bookkept b -> bookkept (emit t b).
Proof.
  intros [H1 [H2 H3]]; unfold bookkept, full_text_of, emit in *; simpl.
  repeat split.
  - rewrite concat_app, length_app, H1; simpl; rewrite app_nil_r; reflexivity.
  - eapply Forall_impl; [|exact H2]; simpl; intros r [Ha Hb]; split; lia.
  - eapply Forall_impl; [|exact H3]; simpl; intros r [Ha Hb]; split; lia.
Qed.

Lemma bookkept_mark (a e : nat) (k : style_type) (b : Builder) :
  a <= e -> e <= current_offset b -> bookkept b -> bookkept (mark a e k b).
Proof.
  intros Ha He [H1 [H2 H3]]; unfold bookkept, full_text_of, mark in *; simpl.
  repeat split; try assumption.
  apply Forall_app; split; [assumption | repeat constructor; simpl; lia].
Qed.

Lemma bookkept_emit_bullet (item : str) (b : Builder) :
  bookkept b -> bookkept (emit_bullet item b).
Proof.
  intros H; destruct (bookkept_emit (item ++ [newline]) b H) as [H1 [H2 H3]].
  unfold emit_bullet; split; [exact H1 | split; [exact H2|]]; simpl.
  apply Forall_app; split; [exact H3|].
  assert (L : length (item ++ [newline]) = length item + 1)
    by (rewrite length_app; reflexivity).
  constructor; [|constructor].
  unfold emit; simpl; rewrite L; split; lia.
Qed.

Lemma bookkept_emit_bullets (items : list str) (b : Builder) :
  bookkept b -> bookkept (emit_bullets items b).
Proof.
  unfold emit_bullets; apply fold_left_invariant.
  intros a x; apply bookkept_emit_bullet.
Qed.

Lemma bookkept_emit_bullets_or_none (items : list str) (b : Builder) :
  bookkept b -> bookkept (emit_bullets_or_none items b).
Proof.
  unfold emit_bullets_or_none; destruct (nothing_identified items);
    [apply bookkept_emit_bullet | apply bookkept_emit_bullets].
Qed.

Lemma bookkept_emit_label (label rest : str) (b : Builder) :
  bookkept b -> bookkept (emit_label label rest b).
Proof.
  intros [H1 [H2 H3]]; unfold emit_label, bookkept, full_text_of, emit, mark in *;
    simpl.
  assert (L : length (label ++ rest ++ [newline])
              = length label + length rest + 1)
    by (rewrite !length_app; simpl; lia).
  repeat split.
  - rewrite concat_app, H1; simpl; rewrite app_nil_r, !length_app; simpl; lia.
  - apply Forall_app; split.
    + eapply Forall_impl; [|exact H2]; simpl; intros r [Ha Hb]; split; lia.
    + repeat constructor; simpl; lia.
  - eapply Forall_impl; [|exact H3]; simpl; intros r [Ha Hb]; split; lia.
Qed.

Lemma bookkept_emit_section (header : str) (b : Builder) :
  bookkept b -> bookkept (emit_section header b).
Proof.
  intros H; unfold emit_section.
  apply bookkept_mark; [lia | | apply bookkept_emit; exact H].
  simpl; rewrite length_app; lia.
Qed.

Lemma build_content_bookkept (intelligence : Intelligence)
    (account_name today : str) :
  bookkept (build_content intelligence account_name today).
Proof.
  unfold build_content; cbv zeta.
  repeat first
    [ apply bookkept_emit_label
    | apply bookkept_emit_section
    | apply bookkept_emit_bullets_or_none
    | apply bookkept_emit_bullets
    | apply bookkept_emit
    | apply bookkept_mark; [simpl; lia | simpl; lia |] ].
  repeat split; constructor.
Qed.

(** X10.  The offsets the section builder keeps by hand are right: the
    final offset is the length of the text, and every styling request
    and every bullet request addresses a range inside the text that is
    inserted at offset 1, never the document below it. *)
Theorem section_requests_stay_inside :
  forall (intelligence : Intelligence) (account_name today : str),
    let content := build_content intelligence account_name today in
    current_offset content = length (full_text_of content)
    /\ Forall (fun r => 1 <= fst (request_range r)
                        /\ fst (request_range r) <= snd (request_range r)
                        /\ snd (request_range r)
                           <= 1 + length (full_text_of content))
              (map (styling_request 1) (formatting_ranges content)
               ++ map (bullet_request 1) (bullet_ranges content)).
Proof.
  intros intelligence account_name today content.
  destruct (build_content_bookkept intelligence account_name today)
    as [H1 [H2 H3]]; fold content in H1, H2, H3.
  split; [exact H1|].
  apply Forall_app; split; apply Forall_forall; intros r Hr;
    apply in_map_iff in Hr as [x [<- Hx]]; rewrite Forall_forall in H2, H3.
  - destruct x as [[a e] k]; destruct (H2 _ Hx) as [Ha He].
    cbn [fst snd] in Ha, He; rewrite H1 in He.
    destruct k; cbn [styling_request request_range fst snd]; lia.
  - destruct x as [a e]; destruct (H3 _ Hx) as [Ha He].
    cbn [fst snd] in Ha, He; rewrite H1 in He.
    cbn [bullet_request request_range fst snd]; lia.
Qed.

(** ** Cost of the discovery scan *)

Lemma drain_window_counts (p : Pages) :
  forall acc n calls k,
    drain_window p acc n = Ok (calls, k) ->
    n < k /\ exists fetched, calls = acc ++ fetched.
Proof.
  induction p as [page|page next IH|]; intros acc n calls k; simpl.
  - intros H; injection H as <- <-; split; [lia | exists page; reflexivity].
  - intros H; apply IH in H as [Hn [fetched ->]].
    split; [lia | exists (page ++ fetched); rewrite app_assoc; reflexivity].
  - discriminate.
Qed.

Lemma scan_window_step (llm : Classifier) (company_name : str)
    (max_calls : Z) (p : Pages) (st st' : Scan) (stop : bool) :
  scan_window llm company_name max_calls p st = Ok (st', stop) ->
  windows_scanned st' = S (windows_scanned st)
  /\ llm_requests st <= llm_requests st' <= llm_requests st + 1
  /\ total_api_calls st < total_api_calls st'
  /\ exists found, matching_calls st' = matching_calls st ++ found.
Proof.
  unfold scan_window.
  destruct (drain_window p [] 0) as [[window_calls n]|e] eqn:Hd; [|discriminate].
  apply drain_window_counts in Hd as [Hn _].
  assert (Hasked : snd (filter_calls_with_llm llm window_calls company_name) <= 1)
    by (destruct window_calls; simpl; lia).
  destruct (filter_calls_with_llm llm window_calls company_name)
    as [filtered asked]; simpl in Hasked.
  intros H.
  assert (Hst : st' = mkScan (matching_calls st ++ filtered)
                             (total_api_calls st + n)
                             (if length filtered =? 0
                              then S (consecutive_empty_windows st) else 0)
                             (S (windows_scanned st))
                             (llm_requests st + asked)).
  { repeat match type of H with
           | (if ?c then _ else _) = _ => destruct c
           end; injection H as <- _; reflexivity. }
  subst st'; simpl; repeat split; try lia.
  exists filtered; reflexivity.
Qed.

Lemma scan_windows_cost (gong : Gong) (llm : Classifier) (company_name : str)
    (max_calls : Z) :
  forall months st st',
    scan_windows gong llm company_name max_calls months st = Ok st' ->
    windows_scanned st' <= windows_scanned st + length months
    /\ (months <> [] -> windows_scanned st < windows_scanned st')
    /\ llm_requests st' - llm_requests st
       <= windows_scanned st' - windows_scanned st
    /\ windows_scanned st' - windows_scanned st
       <= total_api_calls st' - total_api_calls st
    /\ windows_scanned st <= windows_scanned st'
    /\ llm_requests st <= llm_requests st'
    /\ total_api_calls st <= total_api_calls st'.
Proof.
  induction months as [|m later IH]; intros st st'; simpl.
  - intros H; injection H as <-; repeat split; try lia; congruence.
  - destruct (scan_window llm company_name max_calls (gong m) st)
      as [[st1 stop]|e] eqn:Hstep; [|discriminate].
    apply scan_window_step in Hstep as [Hw [Hl [Ha _]]].
    destruct stop.
    + intros H; injection H as <-; repeat split; try lia.
    + intros H; apply IH in H as [H1 [_ [H3 [H4 [H5 [H6 H7]]]]]].
      repeat split; try lia.
Qed.

(** X11.  A discovery that completes has scanned between 1 and 24
    windows, has sent at most one completion request per window scanned
    and at least one platform request per window scanned. *)
Theorem discovery_cost_bounds :
  forall (gong : Gong) (llm : Classifier) (company_name : str)
         (max_calls : Z) (d : Discovery),
    fetch_all_call_ids gong llm company_name max_calls = Ok d ->
    1 <= windows_scanned (final_scan d) <= 24
    /\ llm_requests (final_scan d) <= windows_scanned (final_scan d)
    /\ windows_scanned (final_scan d) <= total_api_calls (final_scan d).
Proof.
  intros gong llm company_name max_calls d; unfold fetch_all_call_ids.
  destruct (scan_windows gong llm company_name max_calls (seq 0 max_windows)
                         initial_scan) as [st|e] eqn:Hscan; [|discriminate].
  destruct (sort_newest_first (matching_calls st)); [|discriminate].
  intros H; injection H as <-; simpl.
  apply scan_windows_cost in Hscan as [H1 [H2 [H3 [H4 _]]]].
  simpl in *.
  assert (Hne : seq 0 max_windows <> []) by discriminate.
  specialize (H2 Hne); lia.
Qed.

Lemma discovery_cost_bounds_witness :
  exists d,
    fetch_all_call_ids (fun _ => MorePages [] (LastPage []))
                       (fun _ _ => lit "NONE") (lit "acme") 30 = Ok d
    /\ 1 <= windows_scanned (final_scan d) <= 24
    /\ llm_requests (final_scan d) <= windows_scanned (final_scan d)
    /\ windows_scanned (final_scan d) <= total_api_calls (final_scan d).
Proof.
  eexists; split; [vm_compute; reflexivity|].
  exact (discovery_cost_bounds
           (fun _ => MorePages [] (LastPage [])) (fun _ _ => lit "NONE")
           (lit "acme") 30 _ eq_refl).
Defined.

(** ** Stability of the sort *)

(** X12.  Blocks that carry the same date come out of the reader's sort
    in the order they have in the document. *)
Theorem same_date_blocks_keep_order :
  forall (blocks : list (str * str)) (date_str : str),
    filter (fun b => str_eqb (fst b) date_str) (stable_sort date_before blocks)
    = filter (fun b => str_eqb (fst b) date_str) blocks.
Proof.
  intros blocks date_str; apply stable_sort_same.
  intros x y Hx Hy; apply str_eqb_eq in Hx, Hy; unfold date_before.
  rewrite Hx, Hy; apply str_ltb_irrefl.
Qed.

(** ** What the markdown pass deletes *)



(** ** Where the discovered calls come from *)

Lemma drain_window_delivered (p : Pages) :
  forall acc n calls k,
    drain_window p acc n = Ok (calls, k) -> calls = acc ++ delivered p.
Proof.
  induction p as [page|page next IH|]; intros acc n calls k; simpl.
  - intros H; injection H as <- _; reflexivity.
  - intros H; apply IH in H; rewrite H, app_assoc; reflexivity.
  - discriminate.
Qed.

Lemma drain_window_healthy (p : Pages) :
  forall acc n,
    (healthy p = true -> exists r, drain_window p acc n = Ok r)
    /\ (healthy p = false -> drain_window p acc n = Raise HTTPError).
Proof.
  induction p as [page|page next IH|]; intros acc n; simpl.
  - split; [eexists; reflexivity | discriminate].
  - apply IH.
  - split; [discriminate | reflexivity].
Qed.

Lemma filter_calls_incl (llm : Classifier) (calls : list Call) (name : str) :
  incl (fst (filter_calls_with_llm llm calls name)) calls.
Proof.
  destruct calls as [|c calls]; simpl; [apply incl_refl|].
  apply interpret_response_incl.
Qed.

Lemma scan_window_cases (llm : Classifier) (company_name : str)
    (max_calls : Z) (p : Pages) (st : Scan) :
  (healthy p = false
   /\ scan_window llm company_name max_calls p st = Raise HTTPError)
  \/ (healthy p = true
      /\ exists st' stop,
           scan_window llm company_name max_calls p st = Ok (st', stop)
           /\ exists found,
                matching_calls st' = matching_calls st ++ found
                /\ incl found (delivered p)).
Proof.
  unfold scan_window.
  destruct (drain_window_healthy p [] 0) as [Hgood Hbad].
  destruct (healthy p); [right | left].
  - split; [reflexivity|].
    destruct (Hgood eq_refl) as [[window_calls n] Hd]; rewrite Hd.
    apply drain_window_delivered in Hd as Hcalls; simpl in Hcalls.
    pose proof (filter_calls_incl llm window_calls company_name) as Hincl.
    destruct (filter_calls_with_llm llm window_calls company_name)
      as [filtered asked]; simpl in Hincl.
    rewrite Hcalls in Hincl.
    repeat match goal with
           | |- context [if ?c then _ else _] => destruct c
           end;
      do 2 eexists; (split; [reflexivity|]);
      exists filtered; split; simpl; auto.
  - split; [reflexivity|]; rewrite (Hbad eq_refl); reflexivity.
Qed.

Lemma scan_windows_cases (gong : Gong) (llm : Classifier) (company_name : str)
    (max_calls : Z) :
  forall months st,
    (scan_windows gong llm company_name max_calls months st = Raise HTTPError
     /\ exists m, In m months /\ healthy (gong m) = false)
    \/ (exists st',
          scan_windows gong llm company_name max_calls months st = Ok st'
          /\ forall c, In c (matching_calls st') ->
                       In c (matching_calls st)
                       \/ exists m, In m months /\ In c (delivered (gong m))).
Proof.
  induction months as [|m later IH]; intros st; simpl.
  - right; exists st; split; [reflexivity | auto].
  - destruct (scan_window_cases llm company_name max_calls (gong m) st)
      as [[Hbad ->] | [_ [st1 [stop [-> [found [Hm Hincl]]]]]]].
    + left; split; [reflexivity | exists m; auto].
    + assert (Hfrom : forall c, In c (matching_calls st1) ->
                                In c (matching_calls st)
                                \/ exists m0, (m = m0 \/ In m0 later)
                                              /\ In c (delivered (gong m0))).
      { intros c Hc; rewrite Hm in Hc; apply in_app_or in Hc as [Hc | Hc];
          [left; exact Hc | right; exists m; auto]. }
      destruct stop; [right; exists st1; split; [reflexivity | exact Hfrom]|].
      destruct (IH st1) as [[-> [m0 [Hin Hbad]]] | [st' [-> Hall]]].
      * left; split; [reflexivity | exists m0; auto].
      * right; exists st'; split; [reflexivity|].
        intros c Hc; destruct (Hall c Hc) as [Hc1 | [m0 [Hin Hd]]];
          [apply Hfrom, Hc1 | right; exists m0; auto].
Qed.

Lemma in_slice_to (A : Type) (l : list A) (b : Z) (x : A) :
  In x (slice_to l b) -> In x l.
Proof. rewrite slice_to_firstn; apply in_firstn. Qed.

(** X14.  Discovery returns nothing the platform has not delivered: every
    match it counts and every id it returns belongs to a call on a page
    of one of the 24 windows. *)
Theorem discovery_returns_delivered_calls :
  forall (gong : Gong) (llm : Classifier) (company_name : str)
         (max_calls : Z) (d : Discovery),
    fetch_all_call_ids gong llm company_name max_calls = Ok d ->
    (forall c, In c (matching_calls (final_scan d)) ->
               exists m, m < max_windows /\ In c (delivered (gong m)))
    /\ (forall id, In id (call_ids d) ->
                   exists c m, m < max_windows /\ In c (delivered (gong m))
                               /\ meta_id c = id).
Proof.
  intros gong llm company_name max_calls d; unfold fetch_all_call_ids.
  destruct (scan_windows_cases gong llm company_name max_calls
                               (seq 0 max_windows) initial_scan)
    as [[-> _] | [st [-> Hall]]]; [discriminate|].
  destruct (sort_newest_first (matching_calls st)) as [sorted|e] eqn:Hsort;
    [|discriminate].
  intros H; injection H as <-; cbn [final_scan call_ids].
  assert (Hfrom : forall c, In c (matching_calls st) ->
                            exists m, m < max_windows /\ In c (delivered (gong m))).
  { intros c Hc; destruct (Hall c Hc) as [[] | [m [Hm Hd]]].
    exists m; split; [apply in_seq in Hm; lia | exact Hd]. }
  split; [exact Hfrom|].
  intros id Hid; apply in_map_iff in Hid as [c [<- Hc]].
  apply in_slice_to in Hc.
  apply sort_newest_first_ok in Hsort as [Hperm _].
  apply (Permutation_in _ Hperm) in Hc.
  destruct (Hfrom c Hc) as [m [Hm Hd]]; exists c, m; auto.
Qed.

Lemma discovery_returns_delivered_calls_witness :
  let c := mkCall (Some (lit "7")) (Some (lit "Acme sync")) (Some (JNum 5)) [] in
  let gong := fun _ : nat => LastPage [c] in
  let llm := fun (_ : list Call) (_ : str) => lit "0" in
  exists d,
    fetch_all_call_ids gong llm (lit "acme") 2 = Ok d
    /\ (forall c, In c (matching_calls (final_scan d)) ->
                  exists m, m < max_windows /\ In c (delivered (gong m)))
    /\ (forall id, In id (call_ids d) ->
                   exists c m, m < max_windows /\ In c (delivered (gong m))
                               /\ meta_id c = id).
Proof.
  intros c gong llm; eexists; split; [vm_compute; reflexivity|].
  exact (discovery_returns_delivered_calls gong llm (lit "acme") 2 _ eq_refl).
Defined.

(** ** Reading a document of several blocks *)

Lemma finditer_from_match (B : Type) (m : str -> option (nat * B))
    (blk rest : str) (x : B) (pos : nat) :
  blk <> [] ->
  m (blk ++ rest) = Some (length blk, x) ->
  finditer_from m (blk ++ rest) pos 0
  = (pos, pos + length blk, x) :: finditer_from m rest (pos + length blk) 0.
Proof.
  intros Hne Hm; destruct blk as [|c blk]; [contradiction|].
  simpl app in *; cbn [finditer_from]; rewrite Hm.
  replace (length (c :: blk) - 1) with (length blk) by (simpl; lia).
  rewrite finditer_from_skip; do 2 f_equal; simpl; lia.
Qed.

Lemma finditer_from_newline (rest : str) (pos : nat) :
  finditer_from match_summary_at (newline :: rest) pos 0
  = finditer_from match_summary_at rest (S pos) 0.
Proof. reflexivity. Qed.

Lemma span_block (pre blk rest : str) :
  span (pre ++ blk ++ rest) (length pre) (length pre + length blk) = blk.
Proof.
  unfold span.
  replace (length pre + length blk - length pre) with (length blk) by lia.
  rewrite skipn_app, skipn_all, Nat.sub_diag; cbn [skipn app].
  rewrite firstn_app, Nat.sub_diag, firstn_all; cbn [firstn]; apply app_nil_r.
Qed.

Lemma document_blocks (cs : list SummaryInput) :
  Forall readable cs ->
  forall pre,
    map (fun m : nat * nat * str =>
           match m with
           | (a, b, date_str) => (date_str, span (pre ++ document_of cs) a b)
           end)
        (finditer_from match_summary_at (document_of cs) (length pre) 0)
    = map dated_block cs.
Proof.
  induction 1 as [|c cs [Hd [Ht [Hi [Hp Hs]]]] _ IH]; intros pre;
    [reflexivity|].
  destruct (formatted_summary_cut (s_date c) (s_title c) (s_id c)
              (s_parties c) (s_duration c) (s_summary c) Ht Hi Hp Hs)
    as [ch [title_rest [body [Hcut [H1 H2]]]]].
  fold (block_text c) in Hcut.
  set (blk := summary_prefix ++ s_date c ++ lit " - " ++ (ch :: title_rest)
              ++ triple_equals ++ body ++ triple_equals) in *.
  assert (Hdoc : document_of (c :: cs)
                 = blk ++ newline :: newline :: document_of cs).
  { unfold document_of; cbn [map concat]; rewrite Hcut, <- !app_assoc.
    reflexivity. }
  assert (Hm : match_summary_at (blk ++ newline :: newline :: document_of cs)
               = Some (length blk, s_date c)).
  { unfold blk; rewrite <- !app_assoc.
    rewrite (match_summary_at_block (s_date c) ch title_rest body
               (newline :: newline :: document_of cs) Hd H1 H2).
    reflexivity. }
  assert (Hne : blk <> []) by (unfold blk; discriminate).
  rewrite Hdoc, (finditer_from_match _ match_summary_at blk _ (s_date c)
                   (length pre) Hne Hm).
  rewrite !finditer_from_newline; cbn [map]; f_equal.
  - unfold dated_block; rewrite Hcut, removelast_last, span_block; reflexivity.
  - specialize (IH (pre ++ blk ++ [newline; newline])).
    rewrite !length_app in IH; cbn [length] in IH.
    replace (length pre + (length blk + 2))
      with (S (S (length pre + length blk))) in IH by lia.
    rewrite <- IH, <- !app_assoc; reflexivity.
Qed.

Lemma sorted_pair (A : Type) (R : A -> A -> Prop) (x y : A) (l : list A) :
  Permutation l [x; y] -> Sorted R l -> ~ R x y -> l = [y; x].
Proof.
  intros Hp Hs Hn.
  apply Permutation_sym, Permutation_length_2_inv in Hp as [-> | ->].
  - inversion Hs as [|? ? _ Hh]; subst; inversion Hh; subst; contradiction.
  - reflexivity.
Qed.

(** X17.  A document made of blocks of the summarizer, as successive
    inserts into the empty document leave it, stays of that form under a
    further insert.  The reader finds exactly its blocks and, when there
    is one at least, returns them, each without its last newline, joined
    by newlines in a rearrangement that is in non-decreasing date order,
    whatever the order of the blocks in the document, and that keeps the
    document order among the blocks of one date. *)
Theorem blocks_read_in_date_order :
  forall (cs : list SummaryInput) (s : Store),
    Forall readable cs ->
    text_of s = document_of cs ->
    extract_summaries (text_of s) = map dated_block cs
    /\ (cs <> [] ->
        exists sorted,
          Permutation sorted (map dated_block cs)
          /\ Sorted date_order sorted
          /\ (forall date_str,
                filter (fun b => str_eqb (fst b) date_str) sorted
                = filter (fun b => str_eqb (fst b) date_str)
                         (map dated_block cs))
          /\ read_summaries_doc s = join [newline] (map snd sorted))
    /\ (forall c,
          contains (call_id_key (s_id c)) (text_of s) = false ->
          exists s',
            append_summary_to_doc s (block_text c) (s_id c) = Ok (s', true)
            /\ text_of s' = document_of (c :: cs)).
Proof.
  intros cs s Hr Ht.
  assert (Hblocks : extract_summaries (text_of s) = map dated_block cs).
  { rewrite Ht; exact (document_blocks cs Hr []). }
  split; [exact Hblocks | split].
  - intros Hne; exists (stable_sort date_before (map dated_block cs)).
    split; [apply stable_sort_perm | split; [|split]].
    + apply (stable_sort_sorted _ date_before str_ltb_date_asym).
    + intros date_str; apply stable_sort_same.
      intros x y Hx Hy; apply str_eqb_eq in Hx, Hy; unfold date_before.
      rewrite Hx, Hy; apply str_ltb_irrefl.
    + unfold read_summaries_doc; rewrite full_doc_text_get, Hblocks.
      destruct cs as [|c cs]; [contradiction | reflexivity].
  - intros c Habsent.
    destruct (append_when_absent s (block_text c) (s_id c) Habsent)
      as [s' [Happ Htext]].
    exists s'; split; [exact Happ|].
    rewrite Htext, Ht; unfold document_of; cbn [map concat].
    rewrite <- !app_assoc; reflexivity.
Qed.

(** The block of March was inserted last and stands first in the
    document; the reader returns the block of January first. *)
Lemma blocks_read_in_date_order_witness :
  let march := mkSummaryInput (lit "2024-03-01") (Some (lit "Review"))
                              (lit "9") [] (Some 1800%Z) (lit "Renewal.") in
  let january := mkSummaryInput (lit "2024-01-05") (Some (lit "Kickoff"))
                                (lit "7") [] (Some 3600%Z) (lit "Pricing.") in
  let s := plain_text (document_of [march; january]) in
  text_of s
  = block_text march ++ [newline] ++ block_text january ++ [newline; newline]
  /\ read_summaries_doc s
     = removelast (block_text january) ++ [newline]
       ++ removelast (block_text march).
Proof.
  intros march january s.
  assert (Hr : Forall readable [march; january]).
  { repeat constructor; vm_compute; intuition discriminate. }
  assert (Ht : text_of s = document_of [march; january])
    by (vm_compute; reflexivity).
  split; [vm_compute; reflexivity|].
  destruct (blocks_read_in_date_order [march; january] s Hr Ht)
    as [_ [Hread _]].
  destruct (Hread ltac:(discriminate)) as [sorted [Hp [Hs [_ ->]]]].
  rewrite (sorted_pair _ date_order (dated_block march) (dated_block january)
                       sorted Hp Hs ltac:(vm_compute; discriminate)).
  vm_compute; reflexivity.
Defined.
